(** * Analysis utilities of [plot_NG_network.py]

    A shallow embedding of the numerical routines of
    [Networks/Neuro_Glia_network/plot_NG_network.py]:
    [smoothing_b], [neurons_firing], [variance], [blocking] and
    [standard_error_I], together with the NumPy primitives they call.

    Arrays are lists.  Python functions return an [outcome]: a value or a
    raised exception.  The element type of the float arrays is abstract
    (class [Float64]): every routine is written once, over the operations
    the source applies, and is then read at two instances,
    - [float], the binary64 numbers of the kernel, where the routines run
      bit for bit (NaN and infinities included), and
    - [R], the real numbers, the semantics in which the formulas of the
      specification are exact. *)

From Stdlib Require Import List ZArith Lia String Bool Reals Lra Sorted Permutation.
From Stdlib Require Import PrimFloat FloatOps SpecFloat.
From stdpp Require Import gmap.

Set Default Proof Using "Type".
Local Open Scope Z_scope.

(** ** Exceptions and outcomes *)

Inductive exn : Set :=
| NotImplementedError
| ValueError
| IndexError
| ZeroDivisionError
| OverflowError
| SystemError.

Inductive outcome (A : Type) : Type :=
| Ok (a : A)
| Raise (e : exn).
Arguments Ok {A} a.
Arguments Raise {A} e.

#[global] Instance outcome_ret : MRet outcome := @Ok.
#[global] Instance outcome_bind : MBind outcome :=
  fun A B f m => match m with Ok a => f a | Raise e => Raise e end.

Definition raises {A} (m : outcome A) : Prop := exists e, m = Raise e.

(** [for v in xs: body] threading the variables the body assigns. *)
Fixpoint for_in {A S : Type} (xs : list A) (body : A -> S -> outcome S) (s : S)
  : outcome S :=
  match xs with
  | [] => Ok s
  | a :: r => s' ← body a s; for_in r body s'
  end.

(** [range(k)] and [np.arange(lo, hi)], empty when the bound is not above
    the start. *)
Definition np_arange2 (lo hi : Z) : list Z :=
  map (fun i => lo + Z.of_nat i) (seq 0 (Z.to_nat (hi - lo))).
Definition np_arange (n : Z) : list Z := np_arange2 0 n.
Definition py_range (k : Z) : list Z := np_arange2 0 k.

Definition len {A} (x : list A) : Z := Z.of_nat (length x).

(** ** The float interface *)

Class Float64 (F : Type) : Type := {
  of_int : Z -> F;             (* conversion of a Python int *)
  fadd : F -> F -> F;
  fsub : F -> F -> F;
  fmul : F -> F -> F;
  fdiv : F -> F -> F;          (* NumPy true division: no exception *)
  flt : F -> F -> bool;        (* a < b *)
  fmax : F -> F -> F;
  fmin : F -> F -> F;
  fsqrt : F -> F;
  to_int : F -> outcome Z      (* int(v): truncation toward zero *)
}.

(** [np.exp] and [np.round], which only the Gaussian window needs. *)
Class FloatFun (F : Type) : Type := {
  fexp : F -> F;
  fround : F -> F
}.

(** *** binary64 *)

Definition float_of_Z (z : Z) : float :=
  SF2Prim (binary_normalize prec emax z 0 false).

Definition float_to_int (f : float) : outcome Z :=
  match Prim2SF f with
  | S754_zero _ => Ok 0
  | S754_infinity _ => Raise OverflowError
  | S754_nan => Raise ValueError
  | S754_finite s m e =>
      let a := Z.shiftl (Z.pos m) e in
      Ok (if s then - a else a)
  end.

Definition float_max (a b : float) : float :=
  if PrimFloat.is_nan a then a
  else if PrimFloat.is_nan b then b
  else if PrimFloat.ltb a b then b else a.

Definition float_min (a b : float) : float :=
  if PrimFloat.is_nan a then a
  else if PrimFloat.is_nan b then b
  else if PrimFloat.ltb b a then b else a.

#[global] Instance binary64 : Float64 float := {|
  of_int := float_of_Z;
  fadd := PrimFloat.add;
  fsub := PrimFloat.sub;
  fmul := PrimFloat.mul;
  fdiv := PrimFloat.div;
  flt := PrimFloat.ltb;
  fmax := float_max;
  fmin := float_min;
  fsqrt := PrimFloat.sqrt;
  to_int := float_to_int
|}.

(** *** Real numbers *)

Definition Rltb (a b : R) : bool := if Rlt_dec a b then true else false.

(** Truncation toward zero. *)
Definition Rtrunc (r : R) : Z :=
  if Rle_dec 0 r then Int_part r else - Int_part (- r).

(** Rounding to the nearest integer, ties to the even one. *)
Definition Rrint (r : R) : Z :=
  let f := Int_part r in
  let d := (r - IZR f)%R in
  if Rlt_dec d (1 / 2) then f
  else if Rlt_dec (1 / 2) d then f + 1
  else if Z.even f then f else f + 1.

#[global] Instance real : Float64 R := {|
  of_int := IZR;
  fadd := Rplus;
  fsub := Rminus;
  fmul := Rmult;
  fdiv := Rdiv;
  flt := Rltb;
  fmax := Rmax;
  fmin := Rmin;
  fsqrt := R_sqrt.sqrt;
  to_int := fun r => Ok (Rtrunc r)
|}.

#[global] Instance real_fun : FloatFun R := {|
  fexp := exp;
  fround := fun r => IZR (Rrint r)
|}.

(** ** NumPy primitives on one-dimensional arrays *)

Section Numpy.
Context {F : Type} `{Float64 F}.

Definition fpow2 (a : F) : F := fmul a a.

(** [x.sum()]: 0.0 for the empty array, otherwise the elements added
    from the first one on.  (NumPy adds the blocks of a long array
    pairwise; the two orders differ by rounding only, and not at all over
    the reals or for fewer than 8 elements.) *)
Definition np_sum (x : list F) : F :=
  match x with
  | [] => of_int 0
  | a :: r => fold_left fadd r a
  end.

(** The builtin [sum(x)]: starts from the int 0. *)
Definition py_sum (x : list F) : F := fold_left fadd x (of_int 0).

Definition np_mean (x : list F) : F := fdiv (np_sum x) (of_int (len x)).

(** [x.std()]: the square root of the mean squared deviation. *)
Definition np_std (x : list F) : F :=
  let m := np_mean x in
  fsqrt (np_mean (map (fun xi => fpow2 (fsub xi m)) x)).

(** [x.max()], [x.min()]: an empty array has no maximum. *)
Definition np_max (x : list F) : outcome F :=
  match x with
  | [] => Raise ValueError
  | a :: r => Ok (fold_left fmax r a)
  end.

Definition np_min (x : list F) : outcome F :=
  match x with
  | [] => Raise ValueError
  | a :: r => Ok (fold_left fmin r a)
  end.

(** One element [x[i]], negative indices counting from the end. *)
Definition np_item (x : list F) (i : Z) : outcome F :=
  let j := if i <? 0 then i + len x else i in
  if (0 <=? j) && (j <? len x) then
    match nth_error x (Z.to_nat j) with
    | Some v => Ok v
    | None => Raise IndexError
    end
  else Raise IndexError.

(** [x[idx]] for an integer index array: a new array. *)
Fixpoint np_take (x : list F) (idx : list Z) : outcome (list F) :=
  match idx with
  | [] => Ok []
  | i :: r => v ← np_item x i; vs ← np_take x r; Ok (v :: vs)
  end.

(** [x[mask]] for a boolean mask, which must have the length of [x]. *)
Fixpoint mask_select (x : list F) (mask : list bool) : list F :=
  match x, mask with
  | v :: x', b :: mask' =>
      if b then v :: mask_select x' mask' else mask_select x' mask'
  | _, _ => []
  end.

Definition np_mask (x : list F) (mask : list bool) : outcome (list F) :=
  if Nat.eqb (length x) (length mask) then Ok (mask_select x mask)
  else Raise IndexError.

Fixpoint zip_add (a b : list F) : list F :=
  match a, b with
  | p :: a', q :: b' => fadd p q :: zip_add a' b'
  | _, _ => []
  end.

(** [a + b]: elementwise, an array of one element being broadcast. *)
Definition np_add (a b : list F) : outcome (list F) :=
  if Nat.eqb (length a) (length b) then Ok (zip_add a b)
  else match a, b with
       | [p], _ => Ok (map (fun q => fadd p q) b)
       | _, [q] => Ok (map (fun p => fadd p q) a)
       | _, _ => Raise ValueError
       end.

(** [x[start:stop]] for bounds that are not negative. *)
Definition py_slice (x : list F) (start stop : Z) : list F :=
  firstn (Z.to_nat (stop - start)) (skipn (Z.to_nat start) x).

(** [np.ones(n)]. *)
Definition np_ones (n : Z) : outcome (list F) :=
  if n <? 0 then Raise ValueError
  else Ok (repeat (of_int 1) (Z.to_nat n)).

(** ** [variance] *)

Definition variance (x : list F) : outcome F :=
  let N := len x in
  let mean := np_mean x in
  let var := map (fun xi => fpow2 (fsub xi mean)) x in
  let var := fdiv (np_sum var) (of_int (N * (N - 1))) in
  Ok var.

(** ** [blocking] *)

(** The body of the loop, up to the blocked array. *)
Definition block (x : list F) : outcome (list F) :=
  let N := len x in
  let N := if negb (N mod 2 =? 0) then N - 1 else N in
  let index := np_arange N in
  let odd := List.filter (fun i => i mod 2 =? 0) index in
  let even := List.filter (fun i => negb (i mod 2 =? 0)) index in
  x1 ← np_take x odd;
  x2 ← np_take x even;
  s ← np_add x1 x2;
  Ok (map (fun v => fdiv v (of_int 2)) s).

Definition blocking_body (_ : Z) (st : list F * list F)
  : outcome (list F * list F) :=
  let '(x, variances_list) := st in
  x_block ← block x;
  var_block ← variance x_block;
  Ok (x_block, variances_list ++ [var_block]).

Definition blocking (x : list F) (k : Z) : outcome (list F) :=
  st ← for_in (py_range k) blocking_body (x, []);
  Ok (snd st).

End Numpy.

(** ** [smoothing_b] *)

Section Smoothing.
Context {F : Type} `{Float64 F} `{FloatFun F}.

(** The dot product of two arrays, over the length of the shorter. *)
Definition dot (p q : list F) : F :=
  fold_left (fun acc ab => fadd acc (fmul (fst ab) (snd ab)))
            (combine p q) (of_int 0).

(** [correlate(a, w, mode='same')] for [len(a) >= len(w)]: one value per
    element of [a]; output [k] pairs [w[0]] with [a[k - len(w)//2]] and
    leaves out the products that fall outside [a]. *)
Definition np_correlate_same (a w : list F) : list F :=
  let n_left := len w / 2 in
  map (fun k =>
         let lo := k - n_left in
         dot (skipn (Z.to_nat lo) a) (skipn (Z.to_nat (- lo)) w))
      (np_arange (len a)).

(** [np.convolve(a, v, mode='same')]. *)
Definition np_convolve_same (a v : list F) : outcome (list F) :=
  let '(a, v) := if (length a <? length v)%nat then (v, a) else (a, v) in
  if len a =? 0 then Raise ValueError
  else if len v =? 0 then Raise ValueError
  else Ok (np_correlate_same a (rev v)).

Definition gaussian_window (width ddt : F) : outcome (list F) :=
  width_dt ← to_int (fround (fdiv (fmul (of_int 2) width) ddt));
  Ok (map (fun k =>
             fexp (fdiv (fmul (of_int (- (k ^ 2))) (of_int 1))
                        (fmul (of_int 2) (fpow2 (fdiv width ddt)))))
          (np_arange2 (- width_dt) (width_dt + 1))).

(** [used_width] only feeds the report of an adjusted width through
    [logger.info], a name the star import of Brian2 is taken to bind; the
    report does not change the result, and the window only depends on
    [width_dt]. *)
Definition flat_window (width ddt : F) : outcome (list F) :=
  w ← to_int (fdiv (fdiv width (of_int 2)) ddt);
  let width_dt := w * 2 + 1 in
  np_ones width_dt.

Definition select_window (window : string) (width ddt : F)
  : outcome (list F) :=
  if String.eqb window "gaussian" then gaussian_window width ddt
  else if String.eqb window "flat" then flat_window width ddt
  else Raise NotImplementedError.

(** [window * 1. / sum(window)] *)
Definition normalise (window : list F) : list F :=
  map (fun w => fdiv (fmul w (of_int 1)) (py_sum window)) window.

Definition smoothing_b (x : list F) (window : string) (width ddt : F)
  : outcome (list F) :=
  window ← select_window window width ddt;
  np_convolve_same x (normalise window).

End Smoothing.

(** ** [neurons_firing] *)

(** [np.unique]: the distinct values, ascending. *)
Fixpoint insert_unique (z : Z) (l : list Z) : list Z :=
  match l with
  | [] => [z]
  | y :: r =>
      if z <? y then z :: l
      else if z =? y then l
      else y :: insert_unique z r
  end.

Definition np_unique (l : list Z) : list Z := fold_right insert_unique [] l.

Section Firing.
Context {F : Type} `{Float64 F}.

(** The unit [second] of Brian2, of value 1. *)
Definition second : F := of_int 1.

Definition neurons_firing_body (t_spikes : list F) (neurons_i : list Z)
    (time_start time_stop time : F) (ind : Z) (neurons_fr : list F)
  : outcome (list F) :=
  sel ← np_mask t_spikes (map (fun i => i =? ind) neurons_i);
  let spikes :=
    List.filter (fun spk => flt time_start spk && flt spk time_stop) sel in
  let firing_rate := fdiv (of_int (len spikes)) time in
  Ok (neurons_fr ++ [firing_rate]).

Definition neurons_firing (t_spikes : list F) (neurons_i : list Z)
    (time_start time_stop : F) : outcome (list F) :=
  let indeces := np_unique neurons_i in
  let time := fmul (fsub time_stop time_start) second in
  for_in indeces
    (neurons_firing_body t_spikes neurons_i time_start time_stop time) [].

(** ** [standard_error_I] *)

(** [a / b] on Python ints. *)
Definition py_truediv (a b : Z) : outcome F :=
  if b =? 0 then Raise ZeroDivisionError
  else Ok (fdiv (of_int a) (of_int b)).

Definition zip_mul (a b : list F) : list F :=
  map (fun p => fmul (fst p) (snd p)) (combine a b).

Definition standard_error_I_body (I : list F) (N_window : Z) (i : Z)
    (st : list F * list F) : outcome (list F * list F) :=
  let '(I_list, I_list_err) := st in
  let start := i * N_window in
  let stop := (i + 1) * N_window in
  let I_mean := py_slice I start stop in
  Ok (I_list ++ [np_mean I_mean], I_list_err ++ [np_std I_mean]).

Definition standard_error_I (I : list F) (N_mean : Z) : outcome (F * F) :=
  let N := len I in
  q ← py_truediv N N_mean;
  N_window ← to_int q;
  st ← for_in (py_range N_mean) (standard_error_I_body I N_window) ([], []);
  let '(I_list, I_list_err) := st in
  error ← (if N_mean <? 30 then
             mx ← np_max I_list;
             mn ← np_min I_list;
             Ok (fdiv (fsub mx mn) (of_int 2))
           else
             let std_square := zip_mul I_list_err I_list_err in
             let std_sum := np_sum std_square in
             Ok (fdiv (fsqrt std_sum) (of_int (len std_square))));
  Ok (np_mean I_list, error).

End Firing.

(** ** [variance] and [blocking] on a store of arrays

    An [ndarray] is a mutable object: the caller and the callee hold
    references to it.  [M] threads the store of the float arrays; the
    index arrays and the list of results are local values. *)

Definition M (F A : Type) : Type :=
  gmap nat (list F) -> outcome (A * gmap nat (list F)).

#[global] Instance M_ret {F} : MRet (M F) := fun A a h => Ok (a, h).
#[global] Instance M_bind {F} : MBind (M F) :=
  fun A B f m h => match m h with
                   | Ok (a, h') => f a h'
                   | Raise e => Raise e
                   end.

Section Store.
Context {F : Type} `{Float64 F}.

Definition lift {A} (m : outcome A) : M F A :=
  fun h => match m with Ok a => Ok (a, h) | Raise e => Raise e end.

(** A new array object, at a reference not in use. *)
Definition new_array (v : list F) : M F nat :=
  fun h => let l := fresh (dom h) in Ok (l, <[l := v]> h).

Definition read (l : nat) : M F (list F) :=
  fun h => match h !! l with
           | Some v => Ok (v, h)
           | None => Raise SystemError
           end.

(** [np.array(x)]: a copy. *)
Definition np_array_h (x : nat) : M F nat := v ← read x; new_array v.

Definition len_h (x : nat) : M F Z := v ← read x; mret (len v).

(** [x[idx]] with an index array: a copy, not a view. *)
Definition take_h (x : nat) (idx : list Z) : M F nat :=
  v ← read x; r ← lift (np_take v idx); new_array r.

Definition add_h (a b : nat) : M F nat :=
  p ← read a; q ← read b; r ← lift (np_add p q); new_array r.

Definition map_h (f : F -> F) (a : nat) : M F nat :=
  p ← read a; new_array (map f p).

Definition mean_h (x : nat) : M F F := v ← read x; mret (np_mean v).
Definition sum_h (x : nat) : M F F := v ← read x; mret (np_sum v).

Definition variance_h (x : nat) : M F F :=
  x ← np_array_h x;
  N ← len_h x;
  mean ← mean_h x;
  d ← map_h (fun xi => fsub xi mean) x;
  var ← map_h fpow2 d;
  s ← sum_h var;
  mret (fdiv s (of_int (N * (N - 1)))).

Fixpoint for_in_h {A S : Type} (xs : list A) (body : A -> S -> M F S) (s : S)
  : M F S :=
  match xs with
  | [] => mret s
  | a :: r => s' ← body a s; for_in_h r body s'
  end.

Definition blocking_body_h (_ : Z) (st : nat * list F)
  : M F (nat * list F) :=
  let '(x, variances_list) := st in
  N ← len_h x;
  let N := if negb (N mod 2 =? 0) then N - 1 else N in
  let index := np_arange N in
  let odd := List.filter (fun i => i mod 2 =? 0) index in
  let even := List.filter (fun i => negb (i mod 2 =? 0)) index in
  x1 ← take_h x odd;
  x2 ← take_h x even;
  s ← add_h x1 x2;
  x_block ← map_h (fun v => fdiv v (of_int 2)) s;
  var_block ← variance_h x_block;
  mret (x_block, variances_list ++ [var_block]).

Definition blocking_h (x : nat) (k : Z) : M F (list F) :=
  x ← np_array_h x;
  st ← for_in_h (py_range k) blocking_body_h (x, []);
  mret (snd st).

End Store.

(** ** The formulas of the specification *)

Section Formulas.
Context {F : Type} `{Float64 F}.

(** The sum of [f 0 .. f (n-1)], in index order. *)
Fixpoint big_sum (n : nat) (f : nat -> F) : F :=
  match n with
  | O => of_int 0
  | S O => f O
  | S m => fadd (big_sum m f) (f m)
  end.

Definition item (x : list F) (i : nat) : F := nth i x (of_int 0).

Definition mean_spec (x : list F) : F :=
  fdiv (big_sum (length x) (item x)) (of_int (len x)).

(** [sum((x_i - mean(x))^2) / (N*(N-1))]. *)
Definition variance_spec (x : list F) : F :=
  let N := len x in
  fdiv (big_sum (length x) (fun i => fpow2 (fsub (item x i) (mean_spec x))))
       (of_int (N * (N - 1))).

(** One re-blocking: drop the last sample of an odd-length sequence,
    split by index parity, average the two halves pairwise. *)
Definition drop_odd_tail (x : list F) : list F :=
  if Nat.odd (length x) then removelast x else x.

(** The length that [drop_odd_tail] keeps: [N], or [N - 1] when [N] is odd. *)
Definition even_len (x : list F) : nat :=
  if Nat.odd (length x) then (length x - 1)%nat else length x.

Fixpoint even_positions (x : list F) : list F :=
  match x with
  | [] => []
  | a :: r => a :: odd_positions r
  end
with odd_positions (x : list F) : list F :=
  match x with
  | [] => []
  | _ :: r => even_positions r
  end.

Definition pairwise_average (a b : list F) : list F :=
  map (fun p => fdiv (fadd (fst p) (snd p)) (of_int 2)) (combine a b).

Definition reblock (x : list F) : list F :=
  let y := drop_odd_tail x in
  pairwise_average (even_positions y) (odd_positions y).

End Formulas.

(** The statement of the specification for short inputs: an error is
    raised. *)
Definition variance_fails_below_two (F : Type) (Fl : Float64 F) : Prop :=
  forall x : list F, (length x < 2)%nat -> raises (variance x).

(** The sum of a list of reals. *)
Definition Rsum (l : list R) : R := fold_right Rplus 0%R l.

(** The flat window length as the specification words it: rounding. *)
Definition flat_length_rounds : Prop :=
  forall width ddt : R,
    exists k, flat_window width ddt = Ok k
              /\ len k = 2 * Rrint (width / 2 / ddt) + 1.

(** The output length as the specification words it: that of the input. *)
Definition smoothing_keeps_length (F : Type) (Fl : Float64 F)
    (FF : FloatFun F) : Prop :=
  forall (x : list F) (width ddt : F) (y : list F),
    smoothing_b x "flat" width ddt = Ok y -> length y = length x.

(** ** Firing rates and window means, as formulas *)

Section RateFormulas.
Context {F : Type} `{Float64 F}.

(** The number of spikes of neuron [ind] at times [t0 < t < t1]. *)
Definition spike_count (t_spikes : list F) (neurons_i : list Z) (ind : Z)
    (t0 t1 : F) : nat :=
  length (List.filter
            (fun p => (snd p =? ind) && (flt t0 (fst p) && flt (fst p) t1))
            (combine t_spikes neurons_i)).

(** The same count over the half-open window [t0 <= t < t1]. *)
Definition spike_count_half_open (t_spikes : list F) (neurons_i : list Z)
    (ind : Z) (t0 t1 : F) : nat :=
  length (List.filter
            (fun p => (snd p =? ind)
                      && (negb (flt (fst p) t0) && flt (fst p) t1))
            (combine t_spikes neurons_i)).

(** The statement of the specification: counts over [[t0, t1)] divided by
    [t1 - t0], one per distinct index in ascending order. *)
Definition rates_half_open : Prop :=
  forall (t_spikes : list F) (neurons_i : list Z) (t0 t1 : F),
    length t_spikes = length neurons_i ->
    neurons_firing t_spikes neurons_i t0 t1
    = Ok (map (fun ind =>
                 fdiv (of_int (Z.of_nat
                         (spike_count_half_open t_spikes neurons_i ind t0 t1)))
                      (fsub t1 t0))
              (np_unique neurons_i)).

(** The means and the standard deviations of the [N_mean] windows of
    [W] samples. *)
Definition window_means (I : list F) (N_mean W : Z) : list F :=
  map (fun i => mean_spec (py_slice I (i * W) ((i + 1) * W)))
      (py_range N_mean).

Definition window_stds (I : list F) (N_mean W : Z) : list F :=
  map (fun i => np_std (py_slice I (i * W) ((i + 1) * W)))
      (py_range N_mean).

End RateFormulas.

(** ** Runs on the store *)

(** [m] run from the store [h] returns a value and a store that extends
    [h] (every array of [h] is still there, unchanged) and satisfy [P]. *)
Definition yields {F A : Type} (m : M F A) (h : gmap nat (list F))
    (P : A -> gmap nat (list F) -> Prop) : Prop :=
  exists a h', m h = Ok (a, h') /\ h ⊆ h' /\ P a h'.

(** ** [errore_in_quadrature] *)

Section Quadrature.
Context {F : Type} `{Float64 F}.

(** On a one-dimensional array of standard deviations: [sum(axis=0)] is
    the sum of the squares and [shape[0]] the number of measures. *)
Definition errore_in_quadrature (std_array : list F) : F :=
  let std_square := zip_mul std_array std_array in
  let std_sum := np_sum std_square in
  fdiv (fsqrt std_sum) (of_int (len std_array)).

End Quadrature.

(** The sum of the samples that a centred window of half-width [w]
    around position [k] finds in [x]. *)
Definition window_sum (x : list R) (w k : nat) : R :=
  Rsum (firstn (k + w + 1 - (k - w)) (skipn (k - w) x)).

(** ** [np.round] and [np.exp] on binary64 *)








(** * Properties *)

(** ** Sums *)

Section SumFacts.
Context {F : Type} `{Float64 F}.

Lemma big_sum_ext (n : nat) (f g : nat -> F) :
  (forall i, (i < n)%nat -> f i = g i) -> big_sum n f = big_sum n g.
Proof.
  induction n as [|n IH]; intros Hfg; [reflexivity|].
  destruct n as [|n].
  - simpl. apply Hfg. lia.
  - change (fadd (big_sum (S n) f) (f (S n)) = fadd (big_sum (S n) g) (g (S n))).
    rewrite IH by (intros i Hi; apply Hfg; lia).
    rewrite (Hfg (S n)) by lia. reflexivity.
Qed.

Lemma np_sum_snoc (x : list F) (a : F) :
  x <> [] -> np_sum (x ++ [a]) = fadd (np_sum x) a.
Proof.
  destruct x as [|b r]; [congruence|]. intros _.
  simpl. rewrite fold_left_app. reflexivity.
Qed.

Lemma item_app_l (x y : list F) (i : nat) :
  (i < length x)%nat -> item (x ++ y) i = item x i.
Proof. intros Hi. unfold item. apply app_nth1. exact Hi. Qed.

Lemma item_snoc (x : list F) (a : F) : item (x ++ [a]) (length x) = a.
Proof. unfold item. rewrite app_nth2 by lia. rewrite Nat.sub_diag. reflexivity. Qed.

(** [x.sum()] adds the elements in index order. *)
Lemma np_sum_big_sum (x : list F) : np_sum x = big_sum (length x) (item x).
Proof.
  induction x as [|a x IH] using rev_ind; [reflexivity|].
  rewrite length_app, Nat.add_comm. simpl length. simpl Nat.add.
  destruct x as [|b r].
  - reflexivity.
  - rewrite np_sum_snoc by discriminate.
    change (fadd (np_sum (b :: r)) a =
            fadd (big_sum (S (length r)) (item ((b :: r) ++ [a])))
                 (item ((b :: r) ++ [a]) (length (b :: r)))).
    rewrite item_snoc, IH. f_equal.
    apply big_sum_ext. intros i Hi. symmetry. apply item_app_l. exact Hi.
Qed.

Lemma item_map (g : F -> F) (x : list F) (i : nat) :
  (i < length x)%nat -> item (map g x) i = g (item x i).
Proof.
  intros Hi. unfold item.
  rewrite (nth_indep (map g x) (of_int 0) (g (of_int 0)))
    by (rewrite length_map; exact Hi).
  apply map_nth.
Qed.

Lemma np_sum_map (g : F -> F) (x : list F) :
  np_sum (map g x) = big_sum (length x) (fun i => g (item x i)).
Proof.
  rewrite np_sum_big_sum, length_map.
  apply big_sum_ext. intros i Hi. apply item_map. exact Hi.
Qed.

Lemma np_mean_spec (x : list F) : np_mean x = mean_spec x.
Proof. unfold np_mean, mean_spec. rewrite np_sum_big_sum. reflexivity. Qed.

Lemma variance_eq_spec (x : list F) : variance x = Ok (variance_spec x).
Proof.
  unfold variance, variance_spec. rewrite np_sum_map, np_mean_spec.
  reflexivity.
Qed.

Lemma variance_zero_divisor (x : list F) :
  (length x < 2)%nat -> len x * (len x - 1) = 0.
Proof. unfold len. intros Hx. destruct x as [|a [|b r]]; simpl in *; lia. Qed.

End SumFacts.

(** ** Index arithmetic of [blocking] *)

Lemma Z_of_nat_even (n : nat) : (Z.of_nat n mod 2 =? 0) = Nat.even n.
Proof.
  destruct (Nat.even n) eqn:E.
  - apply Nat.even_spec in E. destruct E as [m ->].
    rewrite Nat2Z.inj_mul, Z.mul_comm, Z_mod_mult. reflexivity.
  - apply (f_equal negb) in E. rewrite Nat.negb_even in E.
    apply Nat.odd_spec in E. destruct E as [m ->].
    rewrite Nat2Z.inj_add, Nat2Z.inj_mul, Z.mul_comm, Z.add_comm, Z_mod_plus_full.
    reflexivity.
Qed.

Lemma np_arange_of_nat (n : nat) : np_arange (Z.of_nat n) = map Z.of_nat (seq 0 n).
Proof.
  unfold np_arange, np_arange2. rewrite Z.sub_0_r, Nat2Z.id.
  apply map_ext. intros i. lia.
Qed.

Lemma filter_map_comm {A B : Type} (f : A -> B) (p : B -> bool) (l : list A) :
  List.filter p (map f l) = map f (List.filter (fun a => p (f a)) l).
Proof.
  induction l as [|a l IH]; simpl; [reflexivity|].
  destruct (p (f a)); simpl; rewrite IH; reflexivity.
Qed.

Lemma arange_even_indices (n : nat) :
  List.filter (fun i => i mod 2 =? 0) (np_arange (Z.of_nat n))
  = map Z.of_nat (List.filter Nat.even (seq 0 n)).
Proof.
  rewrite np_arange_of_nat, filter_map_comm. f_equal.
  apply filter_ext. intros i. apply Z_of_nat_even.
Qed.

Lemma arange_odd_indices (n : nat) :
  List.filter (fun i => negb (i mod 2 =? 0)) (np_arange (Z.of_nat n))
  = map Z.of_nat (List.filter Nat.odd (seq 0 n)).
Proof.
  rewrite np_arange_of_nat, filter_map_comm. f_equal.
  apply filter_ext. intros i. rewrite Z_of_nat_even. apply Nat.negb_even.
Qed.

Lemma for_in_cons {A S : Type} (a : A) (r : list A)
    (body : A -> S -> outcome S) (s : S) :
  for_in (a :: r) body s
  = match body a s with Ok s' => for_in r body s' | Raise e => Raise e end.
Proof. reflexivity. Qed.

Section BlockFacts.
Context {F : Type} `{Float64 F}.

Lemma np_item_in_range (x : list F) (i : nat) :
  (i < length x)%nat -> np_item x (Z.of_nat i) = Ok (item x i).
Proof.
  intros Hi. unfold np_item, len, item.
  replace (Z.of_nat i <? 0) with false by (symmetry; apply Z.ltb_ge; lia).
  replace (0 <=? Z.of_nat i) with true by (symmetry; apply Z.leb_le; lia).
  replace (Z.of_nat i <? Z.of_nat (length x)) with true
    by (symmetry; apply Z.ltb_lt; lia).
  simpl. rewrite Nat2Z.id.
  rewrite (nth_error_nth' x (of_int 0) Hi). reflexivity.
Qed.

Lemma np_take_in_range (x : list F) (idx : list nat) :
  Forall (fun i => (i < length x)%nat) idx ->
  np_take x (map Z.of_nat idx) = Ok (map (item x) idx).
Proof.
  induction 1 as [|i idx Hi _ IH]; [reflexivity|].
  simpl. rewrite np_item_in_range by exact Hi. simpl.
  rewrite IH. reflexivity.
Qed.

(** The elements at the even and at the odd positions, by index. *)
Lemma positions_by_index (y : list F) :
  even_positions y = map (item y) (List.filter Nat.even (seq 0 (length y)))
  /\ odd_positions y = map (item y) (List.filter Nat.odd (seq 0 (length y))).
Proof.
  induction y as [|a y [IHe IHo]]; [split; reflexivity|].
  simpl length. rewrite <- cons_seq, <- seq_shift. split.
  - simpl. f_equal. rewrite filter_map_comm, map_map, IHo.
    apply (f_equal (map (item y))), filter_ext. intros i.
    symmetry. apply Nat.even_succ.
  - simpl. rewrite filter_map_comm, map_map, IHe.
    apply (f_equal (map (item y))), filter_ext. intros i.
    symmetry. apply Nat.odd_succ.
Qed.

Lemma positions_length (y : list F) :
  Nat.even (length y) = true ->
  length (even_positions y) = length (odd_positions y).
Proof.
  revert y. fix IH 1. intros [|a [|b y]] Hy; simpl in *; try congruence.
  f_equal. apply IH. exact Hy.
Qed.

Lemma even_len_Z (x : list F) :
  (if negb (len x mod 2 =? 0) then len x - 1 else len x)
  = Z.of_nat (even_len x).
Proof.
  unfold len, even_len. rewrite Z_of_nat_even, Nat.negb_even.
  destruct (Nat.odd (length x)) eqn:E; [|reflexivity].
  destruct x; [discriminate|]. simpl length. lia.
Qed.

Lemma even_len_le (x : list F) : (even_len x <= length x)%nat.
Proof. unfold even_len. destruct (Nat.odd _); lia. Qed.

Lemma even_len_even (x : list F) : Nat.even (even_len x) = true.
Proof.
  unfold even_len. destruct (Nat.odd (length x)) eqn:E.
  - destruct (length x) as [|n]; [discriminate|].
    rewrite Nat.odd_succ in E. simpl. rewrite Nat.sub_0_r. exact E.
  - rewrite <- Nat.negb_odd, E. reflexivity.
Qed.

Lemma drop_odd_tail_firstn (x : list F) :
  drop_odd_tail x = firstn (even_len x) x.
Proof.
  unfold drop_odd_tail, even_len. destruct (Nat.odd (length x)).
  - rewrite removelast_firstn_len. f_equal. lia.
  - symmetry. apply firstn_all.
Qed.

Lemma drop_odd_tail_length (x : list F) :
  length (drop_odd_tail x) = even_len x.
Proof.
  rewrite drop_odd_tail_firstn, length_firstn.
  pose proof (even_len_le x). lia.
Qed.

Lemma filter_seq_bound (p : nat -> bool) (n : nat) :
  Forall (fun i => (i < n)%nat) (List.filter p (seq 0 n)).
Proof.
  apply List.Forall_forall. intros i Hi.
  apply filter_In in Hi. destruct Hi as [Hi _].
  apply in_seq in Hi. lia.
Qed.

Lemma np_take_positions (x : list F) (p : nat -> bool) :
  np_take x (map Z.of_nat (List.filter p (seq 0 (even_len x))))
  = Ok (map (item (drop_odd_tail x))
            (List.filter p (seq 0 (length (drop_odd_tail x))))).
Proof.
  rewrite np_take_in_range.
  - rewrite drop_odd_tail_length. f_equal.
    apply map_ext_in. intros i Hi.
    apply filter_In in Hi. destruct Hi as [Hi _]. apply in_seq in Hi.
    rewrite drop_odd_tail_firstn. unfold item. rewrite nth_firstn.
    replace (i <? even_len x)%nat with true
      by (symmetry; apply Nat.ltb_lt; lia).
    reflexivity.
  - eapply List.Forall_impl; [|apply filter_seq_bound].
    intros i Hi. simpl in Hi. pose proof (even_len_le x). lia.
Qed.

Lemma halve_zip_add (a b : list F) :
  map (fun v => fdiv v (of_int 2)) (zip_add a b) = pairwise_average a b.
Proof.
  unfold pairwise_average. revert b.
  induction a as [|p a IH]; intros [|q b]; simpl; try reflexivity.
  rewrite IH. reflexivity.
Qed.

(** The loop body computes the re-blocked sequence of the
    specification, and never raises. *)
Lemma block_reblock (x : list F) : block x = Ok (reblock x).
Proof.
  unfold block, reblock. rewrite even_len_Z.
  rewrite arange_even_indices, arange_odd_indices.
  rewrite !np_take_positions. simpl.
  destruct (positions_by_index (drop_odd_tail x)) as [He Ho].
  rewrite <- He, <- Ho.
  unfold np_add. rewrite positions_length
    by (rewrite drop_odd_tail_length; apply even_len_even).
  rewrite Nat.eqb_refl. simpl. rewrite halve_zip_add. reflexivity.
Qed.

(** The intermediate arrays of the loop body. *)
Lemma block_steps (x : list F) :
  let N := if negb (len x mod 2 =? 0) then len x - 1 else len x in
  let e := even_positions (drop_odd_tail x) in
  let o := odd_positions (drop_odd_tail x) in
  np_take x (List.filter (fun i => i mod 2 =? 0) (np_arange N)) = Ok e
  /\ np_take x (List.filter (fun i => negb (i mod 2 =? 0)) (np_arange N))
     = Ok o
  /\ np_add e o = Ok (zip_add e o)
  /\ map (fun v => fdiv v (of_int 2)) (zip_add e o) = reblock x.
Proof.
  cbv zeta. rewrite even_len_Z.
  rewrite arange_even_indices, arange_odd_indices, !np_take_positions.
  destruct (positions_by_index (drop_odd_tail x)) as [He Ho].
  rewrite <- He, <- Ho.
  split; [reflexivity|]. split; [reflexivity|]. split.
  - unfold np_add. rewrite positions_length
      by (rewrite drop_odd_tail_length; apply even_len_even).
    rewrite Nat.eqb_refl. reflexivity.
  - apply halve_zip_add.
Qed.

Lemma blocking_body_spec (t : Z) (x acc : list F) :
  blocking_body t (x, acc)
  = Ok (reblock x, acc ++ [variance_spec (reblock x)]).
Proof.
  unfold blocking_body. rewrite block_reblock.
  unfold mbind, outcome_bind. rewrite variance_eq_spec. reflexivity.
Qed.

Lemma blocking_loop_spec (ts : list Z) (x acc : list F) :
  for_in ts blocking_body (x, acc)
  = Ok (Nat.iter (length ts) reblock x,
        acc ++ map (fun i => variance_spec (Nat.iter (S i) reblock x))
                   (seq 0 (length ts))).
Proof.
  revert x acc. induction ts as [|t ts IH]; intros x acc.
  - simpl. rewrite app_nil_r. reflexivity.
  - rewrite for_in_cons, blocking_body_spec. rewrite IH.
    simpl length. rewrite <- cons_seq, <- seq_shift, map_cons, map_map.
    rewrite Nat.iter_succ_r, <- app_assoc. simpl app.
    do 4 f_equal. apply map_ext. intros i.
    rewrite <- (Nat.iter_succ_r i). reflexivity.
Qed.

Lemma py_range_length (k : nat) : length (py_range (Z.of_nat k)) = k.
Proof.
  unfold py_range, np_arange2. rewrite length_map, length_seq. lia.
Qed.

Lemma blocking_spec (x : list F) (k : nat) :
  blocking x (Z.of_nat k)
  = Ok (map (fun i => variance_spec (Nat.iter (S i) reblock x)) (seq 0 k)).
Proof.
  unfold blocking. rewrite blocking_loop_spec, py_range_length.
  reflexivity.
Qed.

End BlockFacts.

(** ** [variance] and [blocking]: the claims *)

(** Evaluates the integers under [IZR]. *)
Ltac eval_IZR :=
  repeat match goal with
         | |- context [IZR ?z] =>
             let z' := eval vm_compute in z in progress change z with z'
         end.

Lemma variance_real_ones : variance (F:=R) [1; 1; 1; 1]%R = Ok 0%R.
Proof.
  unfold variance, np_mean, np_sum, fpow2, len. cbn. f_equal.
  eval_IZR. field.
Qed.

Lemma variance_real_pair : variance (F:=R) [0; 2]%R = Ok 1%R.
Proof.
  unfold variance, np_mean, np_sum, fpow2, len. cbn. f_equal.
  eval_IZR. field.
Qed.

(** C1. [blocking x k] returns exactly [k] variance estimates (none for
    [k = 0]); the [i]-th one is the variance of the specification's
    section 4.3 of the sequence obtained from [x] by [i + 1] re-blockings:
    drop the last sample of an odd-length sequence, split by index
    parity, average the two halves pairwise. *)
Theorem C1_blocking_estimates :
  forall (F : Type) (Fl : Float64 F) (x : list F) (k : nat),
    exists vs : list F,
      blocking x (Z.of_nat k) = Ok vs
      /\ length vs = k
      /\ vs = map (fun i => variance_spec (Nat.iter (S i) reblock x)) (seq 0 k)
      /\ blocking x 0 = Ok [].
Proof.
  intros F Fl x k. eexists. split; [apply blocking_spec|].
  split; [rewrite length_map; apply length_seq|].
  split; reflexivity.
Qed.

(** C2. For a sequence [x] of length [N >= 2], [variance x] is
    [sum((x_i - mean(x))^2) / (N*(N-1))]; [variance [1,1,1,1] = 0] and
    [variance [0,2] = 1], in binary64 and over the reals. *)
Theorem C2_variance_formula :
  (forall (F : Type) (Fl : Float64 F) (x : list F),
      (2 <= length x)%nat -> variance x = Ok (variance_spec x))
  /\ variance (F:=float) [1; 1; 1; 1]%float = Ok 0%float
  /\ variance (F:=float) [0; 2]%float = Ok 1%float
  /\ variance (F:=R) [1; 1; 1; 1]%R = Ok 0%R
  /\ variance (F:=R) [0; 2]%R = Ok 1%R.
Proof.
  split; [intros F Fl x _; apply variance_eq_spec|].
  split; [vm_compute; reflexivity|].
  split; [vm_compute; reflexivity|].
  split; [apply variance_real_ones | apply variance_real_pair].
Qed.

Lemma C2_variance_formula_witness :
  (2 <= length [0; 2]%float)%nat
  /\ variance (F:=float) [0; 2]%float = Ok (variance_spec [0; 2]%float).
Proof.
  split; [simpl; lia|].
  apply (proj1 C2_variance_formula float binary64 [0; 2]%float). simpl. lia.
Defined.

(** C3, refuted: on the empty array, and on an array of one sample,
    [variance] returns NaN; no error is raised. *)
Lemma C3_variance_no_error :
  variance (F:=float) [] = Ok nan
  /\ variance (F:=float) [5]%float = Ok nan
  /\ ~ variance_fails_below_two float binary64.
Proof.
  split; [vm_compute; reflexivity|].
  split; [vm_compute; reflexivity|].
  intros Hc. destruct (Hc [] ltac:(simpl; lia)) as [e He].
  vm_compute in He. discriminate He.
Qed.

(** C3, as the code has it. With fewer than 2 samples [variance] raises
    nothing: it returns the quotient of its sum of squares by
    [N*(N-1) = 0], which binary64 evaluates to NaN, as on [[]] and on
    [[5.0]]. *)
Theorem C3_variance_short_input :
  (forall (F : Type) (Fl : Float64 F) (x : list F),
      (length x < 2)%nat ->
      ~ raises (variance x)
      /\ len x * (len x - 1) = 0
      /\ variance x
         = Ok (fdiv (np_sum (map (fun xi => fpow2 (fsub xi (np_mean x))) x))
                    (of_int 0)))
  /\ variance (F:=float) [] = Ok nan
  /\ variance (F:=float) [5]%float = Ok nan.
Proof.
  split; [|split; vm_compute; reflexivity].
  intros F Fl x Hx. split; [|split].
  - intros [e He]. discriminate He.
  - apply variance_zero_divisor. exact Hx.
  - unfold variance. rewrite (variance_zero_divisor x Hx). reflexivity.
Qed.

Lemma C3_variance_short_input_witness :
  (length [5]%float < 2)%nat
  /\ variance (F:=float) [5]%float
     = Ok (fdiv (np_sum (map (fun xi => fpow2 (fsub xi (np_mean [5]%float)))
                             [5]%float))
                (of_int 0)).
Proof.
  split; [simpl; lia|].
  apply (proj1 C3_variance_short_input float binary64 [5]%float). simpl. lia.
Defined.

(** ** Reals: truncation, rounding, sums *)

Lemma Int_part_IZR (z : Z) : Int_part (IZR z) = z.
Proof. symmetry. apply Int_part_spec. lra. Qed.

Lemma Int_part_nonneg (r : R) : (0 <= r)%R -> 0 <= Int_part r.
Proof.
  intros Hr. destruct (base_Int_part r) as [_ Hlo].
  assert (Hlt : (IZR (-1) < IZR (Int_part r))%R) by (simpl; lra).
  apply lt_IZR in Hlt. lia.
Qed.

Lemma Rtrunc_IZR (z : Z) : Rtrunc (IZR z) = z.
Proof.
  unfold Rtrunc. destruct (Rle_dec 0 (IZR z)) as [_|_].
  - apply Int_part_IZR.
  - rewrite <- opp_IZR, Int_part_IZR. lia.
Qed.

Lemma Rtrunc_nonneg_spec (r : R) (z : Z) :
  (0 <= r)%R -> (IZR z <= r < IZR z + 1)%R -> Rtrunc r = z.
Proof.
  intros Hr Hz. unfold Rtrunc. destruct (Rle_dec 0 r) as [_|Hn]; [|lra].
  symmetry. apply Int_part_spec. lra.
Qed.

Lemma Rtrunc_nonneg (r : R) : (0 <= r)%R -> 0 <= Rtrunc r.
Proof.
  intros Hr. unfold Rtrunc. destruct (Rle_dec 0 r) as [_|Hn]; [|lra].
  apply Int_part_nonneg. exact Hr.
Qed.

Lemma Rrint_nonneg (r : R) : (0 <= r)%R -> 0 <= Rrint r.
Proof.
  intros Hr. pose proof (Int_part_nonneg r Hr). unfold Rrint.
  repeat match goal with |- context [if ?c then _ else _] => destruct c end;
    lia.
Qed.

Lemma Rrint_spec_up (r : R) (z : Z) :
  (IZR z - 1 / 2 < r < IZR z + 1 / 2)%R -> Rrint r = z.
Proof.
  intros Hz. unfold Rrint.
  destruct (base_Int_part r) as [Hhi Hlo].
  assert (Hc : Int_part r = z \/ Int_part r = z - 1).
  { assert (H1 : (IZR (z - 2) < IZR (Int_part r))%R)
      by (rewrite minus_IZR; lra).
    assert (H2 : (IZR (Int_part r) < IZR (z + 1))%R)
      by (rewrite plus_IZR; lra).
    apply lt_IZR in H1, H2. lia. }
  destruct Hc as [-> | ->].
  - destruct (Rlt_dec (r - IZR z) (1 / 2)) as [_|Hn]; [reflexivity|lra].
  - rewrite minus_IZR.
    destruct (Rlt_dec (r - (IZR z - 1)) (1 / 2)) as [Hl|_]; [lra|].
    destruct (Rlt_dec (1 / 2) (r - (IZR z - 1))) as [_|Hn]; [lia|lra].
Qed.

Lemma fold_left_Rplus (l : list R) (a : R) :
  fold_left Rplus l a = (a + Rsum l)%R.
Proof.
  revert a. induction l as [|b l IH]; intros a; simpl.
  - lra.
  - rewrite IH. lra.
Qed.

Lemma np_sum_Rsum (l : list R) : np_sum (F:=R) l = Rsum l.
Proof.
  destruct l as [|a l]; [reflexivity|].
  simpl. rewrite fold_left_Rplus. reflexivity.
Qed.

Lemma py_sum_Rsum (l : list R) : py_sum (F:=R) l = Rsum l.
Proof. unfold py_sum. simpl. rewrite fold_left_Rplus. lra. Qed.

Lemma Rsum_scale (c : R) (l : list R) :
  Rsum (map (fun a => (a * 1 / c)%R) l) = (Rsum l / c)%R.
Proof.
  induction l as [|a l IH]; simpl.
  - unfold Rdiv. lra.
  - rewrite IH. unfold Rdiv. lra.
Qed.

Lemma Rsum_pos (l : list R) :
  l <> [] -> List.Forall (fun a => (0 < a)%R) l -> (0 < Rsum l)%R.
Proof.
  intros Hne Hpos. destruct l as [|a l]; [congruence|].
  inversion Hpos as [|? ? Ha Hl]; subst. simpl.
  enough (0 <= Rsum l)%R by lra.
  clear -Hl. induction Hl as [|b l Hb _ IH]; simpl; lra.
Qed.

(** A kernel of positive weights is normalised to unit sum. *)
Lemma normalise_unit_sum (k : list R) :
  k <> [] -> List.Forall (fun a => (0 < a)%R) k ->
  np_sum (normalise k) = 1%R.
Proof.
  intros Hne Hpos. pose proof (Rsum_pos k Hne Hpos) as HS.
  unfold normalise. rewrite np_sum_Rsum, py_sum_Rsum.
  change (Rsum (map (fun w => (w * 1 / Rsum k)%R) k) = 1%R).
  rewrite Rsum_scale. field. lra.
Qed.

(** ** [smoothing_b] *)

Section SmoothingFacts.
Context {F : Type} `{Float64 F} `{FloatFun F}.

Lemma np_arange_length (n : nat) : length (np_arange (Z.of_nat n)) = n.
Proof. rewrite np_arange_of_nat, length_map. apply length_seq. Qed.

Lemma np_correlate_same_length (a w : list F) :
  length (np_correlate_same a w) = length a.
Proof.
  unfold np_correlate_same, len. rewrite length_map. apply np_arange_length.
Qed.

(** Mode 'same' returns as many values as the longer argument has. *)
Lemma np_convolve_same_length (a v y : list F) :
  np_convolve_same a v = Ok y ->
  length y = Nat.max (length a) (length v).
Proof.
  unfold np_convolve_same, len.
  destruct (length a <? length v)%nat eqn:E.
  - apply Nat.ltb_lt in E.
    destruct (Z.of_nat (length v) =? 0); [discriminate|].
    destruct (Z.of_nat (length a) =? 0); [discriminate|].
    intros [= <-]. rewrite np_correlate_same_length. lia.
  - apply Nat.ltb_ge in E.
    destruct (Z.of_nat (length a) =? 0); [discriminate|].
    destruct (Z.of_nat (length v) =? 0); [discriminate|].
    intros [= <-]. rewrite np_correlate_same_length. lia.
Qed.

Lemma normalise_length (k : list F) : length (normalise k) = length k.
Proof. unfold normalise. apply length_map. Qed.

Lemma smoothing_b_length (x : list F) (window : string) (width ddt : F)
    (y : list F) :
  smoothing_b x window width ddt = Ok y ->
  exists k, select_window window width ddt = Ok k
            /\ length y = Nat.max (length x) (length k).
Proof.
  unfold smoothing_b. destruct (select_window window width ddt) as [k|e].
  - intros Hy. exists k. split; [reflexivity|].
    apply np_convolve_same_length in Hy.
    rewrite normalise_length in Hy. exact Hy.
  - discriminate.
Qed.

Lemma smoothing_b_flat (x : list F) (width ddt : F) :
  smoothing_b x "flat" width ddt
  = match flat_window width ddt with
    | Ok k => np_convolve_same x (normalise k)
    | Raise e => Raise e
    end.
Proof. reflexivity. Qed.

Lemma flat_window_ones (width ddt : F) (w : Z) :
  to_int (fdiv (fdiv width (of_int 2)) ddt) = Ok w -> 0 <= w ->
  flat_window width ddt = Ok (repeat (of_int 1) (Z.to_nat (2 * w + 1))).
Proof.
  intros Hw Hpos. unfold flat_window. rewrite Hw.
  unfold mbind, outcome_bind, np_ones.
  replace (w * 2 + 1 <? 0) with false by (symmetry; apply Z.ltb_ge; lia).
  do 3 f_equal. lia.
Qed.

Lemma normalise_repeat (a : F) (n : nat) :
  normalise (repeat a n)
  = repeat (fdiv (fmul a (of_int 1)) (py_sum (repeat a n))) n.
Proof.
  unfold normalise. generalize (py_sum (repeat a n)). intros s.
  induction n as [|n IH]; simpl; [reflexivity|]. rewrite IH. reflexivity.
Qed.

End SmoothingFacts.

Lemma Rsum_repeat (a : R) (n : nat) : Rsum (repeat a n) = (INR n * a)%R.
Proof.
  induction n as [|n IH]; [simpl; lra|].
  rewrite S_INR. simpl. rewrite IH. lra.
Qed.

Lemma repeat_pos (a : R) (n : nat) :
  (0 < a)%R -> List.Forall (fun b => (0 < b)%R) (repeat a n).
Proof. intros Ha. induction n; simpl; constructor; assumption. Qed.

(** C7. A window name other than 'gaussian' and 'flat' makes
    [smoothing_b] raise [NotImplementedError]: no signal is returned. *)
Theorem C7_unknown_window_raises :
  forall (F : Type) (Fl : Float64 F) (FF : FloatFun F)
         (x : list F) (window : string) (width ddt : F),
    window <> "gaussian"%string -> window <> "flat"%string ->
    smoothing_b x window width ddt = Raise NotImplementedError.
Proof.
  intros F Fl FF x window width ddt Hg Hf.
  unfold smoothing_b, select_window.
  apply String.eqb_neq in Hg, Hf. rewrite Hg, Hf. reflexivity.
Qed.

Lemma C7_unknown_window_raises_witness :
  smoothing_b (F:=R) [1; 2; 3]%R "hanning" 1%R 1%R
  = Raise NotImplementedError.
Proof.
  apply (C7_unknown_window_raises R real real_fun); discriminate.
Defined.

(** C4, refuted: for a width of 3 sampling intervals the flat window
    has 3 samples, in binary64 and over the reals, where rounding
    [width/2/ddt = 1.5] gives 2 and a length of 5. *)
Lemma C4_flat_length_not_rounded :
  flat_window (F:=float) 3%float 1%float = Ok [1; 1; 1]%float
  /\ flat_window (F:=R) 3%R 1%R = Ok [1; 1; 1]%R
  /\ 2 * Rrint (3 / 2 / 1) + 1 = 5
  /\ ~ flat_length_rounds.
Proof.
  assert (Ht : Rtrunc (3 / 2 / 1) = 1)
    by (apply Rtrunc_nonneg_spec; simpl; lra).
  assert (Hi : Int_part (3 / 2 / 1) = 1)
    by (symmetry; apply Int_part_spec; simpl; lra).
  assert (Hr : Rrint (3 / 2 / 1) = 2).
  { unfold Rrint. rewrite Hi. simpl IZR.
    destruct (Rlt_dec (3 / 2 / 1 - 1) (1 / 2)) as [Hl|_]; [lra|].
    destruct (Rlt_dec (1 / 2) (3 / 2 / 1 - 1)) as [Hl|_]; [lra|].
    reflexivity. }
  assert (Hk : flat_window (F:=R) 3%R 1%R = Ok [1; 1; 1]%R).
  { unfold flat_window. simpl. rewrite Ht. reflexivity. }
  split; [vm_compute; reflexivity|].
  split; [exact Hk|].
  split; [rewrite Hr; reflexivity|].
  intros Hc. destruct (Hc 3%R 1%R) as (k & Hk' & Hlen).
  rewrite Hk in Hk'. injection Hk' as <-.
  rewrite Hr in Hlen. discriminate Hlen.
Qed.

Lemma flat_window_real (width ddt : R) :
  0 <= Rtrunc (width / 2 / ddt) ->
  exists k,
    flat_window width ddt = Ok k
    /\ len k = 2 * Rtrunc (width / 2 / ddt) + 1
    /\ normalise k = repeat (1 / IZR (len k))%R (length k)
    /\ np_sum (normalise k) = 1%R.
Proof.
  intros Hpos. set (w := Rtrunc (width / 2 / ddt)) in *.
  exists (repeat (of_int 1) (Z.to_nat (2 * w + 1))).
  assert (Hlen : len (repeat (of_int (F:=R) 1) (Z.to_nat (2 * w + 1)))
                 = 2 * w + 1)
    by (unfold len; rewrite repeat_length; lia).
  assert (Hsum : py_sum (repeat (of_int (F:=R) 1) (Z.to_nat (2 * w + 1)))
                 = IZR (2 * w + 1)).
  { rewrite py_sum_Rsum, Rsum_repeat, INR_IZR_INZ, Z2Nat.id by lia.
    simpl. lra. }
  split; [apply flat_window_ones; [reflexivity|exact Hpos]|].
  split; [exact Hlen|].
  split.
  - rewrite normalise_repeat, Hsum, Hlen, repeat_length.
    f_equal. simpl. lra.
  - apply normalise_unit_sum.
    + destruct (Z.to_nat (2 * w + 1)) eqn:E; [lia|discriminate].
    + apply repeat_pos. simpl. lra.
Qed.

(** C4, as the code has it. The flat window has
    [2*int(width/2/ddt) + 1] samples, [int] truncating toward zero, an
    odd number, whenever that integer part is not negative; all weights
    are equal; over the reals the normalised weights are
    [1/(2*int(width/2/ddt) + 1)] and sum to 1. *)
Theorem C4_flat_window :
  (forall (F : Type) (Fl : Float64 F) (width ddt : F) (w : Z),
      to_int (fdiv (fdiv width (of_int 2)) ddt) = Ok w -> 0 <= w ->
      exists k,
        flat_window width ddt = Ok k
        /\ len k = 2 * w + 1
        /\ Z.odd (len k) = true
        /\ k = repeat (of_int 1) (length k)
        /\ normalise k
           = repeat (fdiv (fmul (of_int 1) (of_int 1)) (py_sum k)) (length k))
  /\ (forall (width ddt : R),
        0 <= Rtrunc (width / 2 / ddt) ->
        exists k,
          flat_window width ddt = Ok k
          /\ len k = 2 * Rtrunc (width / 2 / ddt) + 1
          /\ normalise k = repeat (1 / IZR (len k))%R (length k)
          /\ np_sum (normalise k) = 1%R).
Proof.
  split; [|exact flat_window_real].
  intros F Fl width ddt w Hw Hpos.
  exists (repeat (of_int 1) (Z.to_nat (2 * w + 1))).
  rewrite repeat_length.
  split; [apply flat_window_ones; assumption|].
  split; [unfold len; rewrite repeat_length; lia|].
  split; [unfold len; rewrite repeat_length, Z2Nat.id by lia;
          rewrite Z.add_comm, Z.odd_add_mul_2; reflexivity|].
  split; [reflexivity|apply normalise_repeat].
Qed.

Lemma C4_flat_window_witness :
  (exists k, flat_window (F:=float) 5%float 1%float = Ok k /\ len k = 5)
  /\ (exists k, flat_window (F:=R) 5%R 1%R = Ok k
                /\ np_sum (normalise k) = 1%R).
Proof.
  split.
  - destruct (proj1 C4_flat_window float binary64 5%float 1%float 2)
      as (k & Hk & Hl & _).
    + vm_compute. reflexivity.
    + lia.
    + exists k. split; [exact Hk | exact Hl].
  - assert (Ht : Rtrunc (5 / 2 / 1) = 2)
      by (apply Rtrunc_nonneg_spec; simpl; lra).
    destruct (proj2 C4_flat_window 5%R 1%R) as (k & Hk & _ & _ & Hs).
    + rewrite Ht. lia.
    + exists k. split; [exact Hk | exact Hs].
Defined.

(** C5. The smoothed signal has the length of the longer of the signal
    and the window: a signal of 3 samples smoothed with a flat window of
    width 5 (5 samples) comes back with 5 samples, so the length of the
    input is not always kept. *)
Theorem C5_smoothing_length :
  (forall (F : Type) (Fl : Float64 F) (FF : FloatFun F)
          (x : list F) (window : string) (width ddt : F) (y : list F),
      smoothing_b x window width ddt = Ok y ->
      exists k, select_window window width ddt = Ok k
                /\ length y = Nat.max (length x) (length k))
  /\ (forall FF : FloatFun float,
        exists y,
          smoothing_b (F:=float) [1; 2; 3]%float "flat" 5%float 1%float = Ok y
          /\ length y = 5%nat)
  /\ (exists y,
        smoothing_b (F:=R) [1; 2; 3]%R "flat" 5%R 1%R = Ok y
        /\ length y = 5%nat)
  /\ (forall FF : FloatFun float, ~ smoothing_keeps_length float binary64 FF).
Proof.
  assert (Hfl : forall FF : FloatFun float,
             exists y,
               smoothing_b (F:=float) [1; 2; 3]%float "flat" 5%float 1%float
               = Ok y /\ length y = 5%nat).
  { intros FF. rewrite smoothing_b_flat. vm_compute. eexists.
    split; reflexivity. }
  split; [intros F Fl FF; apply smoothing_b_length|].
  split; [exact Hfl|].
  split.
  - assert (Ht : Rtrunc (5 / 2 / 1) = 2)
      by (apply Rtrunc_nonneg_spec; simpl; lra).
    rewrite smoothing_b_flat. unfold flat_window. simpl to_int.
    rewrite Ht. simpl. eexists. split; reflexivity.
  - intros FF Hc. destruct (Hfl FF) as (y & Hy & Hlen).
    apply Hc in Hy. rewrite Hy in Hlen. discriminate Hlen.
Qed.

Lemma C5_smoothing_length_witness :
  exists y k,
    smoothing_b (F:=R) [1; 2; 3]%R "flat" 5%R 1%R = Ok y
    /\ select_window (F:=R) "flat" 5%R 1%R = Ok k
    /\ length y = Nat.max 3 (length k).
Proof.
  destruct C5_smoothing_length as (Hgen & _ & (y & Hy & _) & _).
  destruct (Hgen R real real_fun _ _ _ _ _ Hy) as (k & Hk & Hlen).
  exists y, k. split; [exact Hy|]. split; [exact Hk | exact Hlen].
Defined.

(** ** The Gaussian window over the reals *)

Lemma np_arange2_nonempty (lo hi : Z) : lo < hi -> np_arange2 lo hi <> [].
Proof.
  intros Hlt. unfold np_arange2.
  destruct (Z.to_nat (hi - lo)) eqn:E; [lia|]. discriminate.
Qed.

Lemma gaussian_window_real (width ddt : R) :
  gaussian_window width ddt
  = Ok (map (fun k =>
               exp (IZR (- k ^ 2) * 1 / (2 * (width / ddt * (width / ddt)))))
            (np_arange2 (- Rrint (2 * width / ddt))
                        (Rrint (2 * width / ddt) + 1))).
Proof.
  unfold gaussian_window. simpl to_int. rewrite Rtrunc_IZR. reflexivity.
Qed.



(** ** [neurons_firing] *)

Lemma insert_unique_In (z x : Z) (l : list Z) :
  In x (insert_unique z l) <-> x = z \/ In x l.
Proof.
  induction l as [|y l IH]; simpl.
  - intuition.
  - destruct (z <? y) eqn:E1; [simpl; intuition|].
    destruct (z =? y) eqn:E2.
    + apply Z.eqb_eq in E2. subst y. simpl. intuition.
    + simpl. rewrite IH. intuition.
Qed.

Lemma insert_unique_sorted (z : Z) (l : list Z) :
  StronglySorted Z.lt l -> StronglySorted Z.lt (insert_unique z l).
Proof.
  induction 1 as [|y l Hs IH Hy]; simpl.
  - constructor; constructor.
  - destruct (z <? y) eqn:E1.
    + apply Z.ltb_lt in E1. constructor; [constructor; assumption|].
      constructor; [exact E1|].
      eapply List.Forall_impl; [|exact Hy]. simpl. intros a Ha. lia.
    + destruct (z =? y) eqn:E2; [constructor; assumption|].
      apply Z.ltb_ge in E1. apply Z.eqb_neq in E2.
      constructor; [exact IH|].
      apply List.Forall_forall. intros a Ha.
      apply insert_unique_In in Ha. destruct Ha as [-> | Ha]; [lia|].
      rewrite List.Forall_forall in Hy. apply Hy. exact Ha.
Qed.

(** [np.unique] lists the values that occur, once each, ascending. *)
Lemma np_unique_sorted (l : list Z) : StronglySorted Z.lt (np_unique l).
Proof.
  induction l as [|z l IH]; simpl; [constructor|].
  apply insert_unique_sorted. exact IH.
Qed.

Lemma np_unique_In (l : list Z) (z : Z) : In z (np_unique l) <-> In z l.
Proof.
  induction l as [|y l IH]; simpl; [reflexivity|].
  rewrite insert_unique_In, IH. intuition.
Qed.

Lemma for_in_append {A B : Type} (g : A -> B) (body : A -> list B -> outcome (list B))
    (l : list A) (acc : list B) :
  (forall a acc', body a acc' = Ok (acc' ++ [g a])) ->
  for_in l body acc = Ok (acc ++ map g l).
Proof.
  intros Hbody. revert acc. induction l as [|a l IH]; intros acc.
  - simpl. rewrite app_nil_r. reflexivity.
  - rewrite for_in_cons, Hbody, IH, <- app_assoc. reflexivity.
Qed.

Section FiringFacts.
Context {F : Type} `{Float64 F}.

Lemma mask_select_filter (p : F -> bool) (ind : Z) (ts : list F)
    (ns : list Z) :
  List.filter p (mask_select ts (map (fun i => i =? ind) ns))
  = map fst (List.filter (fun q => (snd q =? ind) && p (fst q))
                         (combine ts ns)).
Proof.
  revert ns. induction ts as [|t ts IH]; intros [|n ns]; simpl;
    try reflexivity.
  destruct (n =? ind); simpl.
  - destruct (p t); simpl; rewrite IH; reflexivity.
  - apply IH.
Qed.

Lemma neurons_firing_body_spec (t_spikes : list F) (neurons_i : list Z)
    (t0 t1 time : F) (ind : Z) (acc : list F) :
  length t_spikes = length neurons_i ->
  neurons_firing_body t_spikes neurons_i t0 t1 time ind acc
  = Ok (acc ++ [fdiv (of_int (Z.of_nat
                        (spike_count t_spikes neurons_i ind t0 t1)))
                     time]).
Proof.
  intros Hlen. unfold neurons_firing_body, np_mask.
  rewrite length_map, Hlen, Nat.eqb_refl.
  unfold mbind, outcome_bind, len, spike_count.
  rewrite mask_select_filter, length_map. reflexivity.
Qed.

Lemma neurons_firing_spec (t_spikes : list F) (neurons_i : list Z)
    (t0 t1 : F) :
  length t_spikes = length neurons_i ->
  neurons_firing t_spikes neurons_i t0 t1
  = Ok (map (fun ind =>
               fdiv (of_int (Z.of_nat
                       (spike_count t_spikes neurons_i ind t0 t1)))
                    (fmul (fsub t1 t0) second))
            (np_unique neurons_i)).
Proof.
  intros Hlen. unfold neurons_firing.
  rewrite (for_in_append
             (fun ind =>
                fdiv (of_int (Z.of_nat
                        (spike_count t_spikes neurons_i ind t0 t1)))
                     (fmul (fsub t1 t0) second))).
  - reflexivity.
  - intros ind acc. apply neurons_firing_body_spec. exact Hlen.
Qed.

End FiringFacts.

(** C6, refuted: a spike at exactly [t0] is not counted.  One spike of
    neuron 0 at time 0 and the window from 0 to 1 give the rate 0, where
    the half-open window [[0, 1)] gives 1. *)
Lemma C6_spike_at_window_start :
  neurons_firing (F:=float) [0%float] [0] 0%float 1%float = Ok [0%float]
  /\ spike_count_half_open (F:=float) [0%float] [0] 0 0%float 1%float = 1%nat
  /\ ~ rates_half_open (F:=float).
Proof.
  split; [vm_compute; reflexivity|].
  split; [vm_compute; reflexivity|].
  intros Hc. specialize (Hc [0%float] [0] 0%float 1%float eq_refl).
  apply (f_equal (fun o => match o with
                             | Ok [f] => PrimFloat.eqb f 0%float
                             | _ => false
                             end)) in Hc.
  vm_compute in Hc. discriminate Hc.
Qed.

(** C6, as the code has it. For parallel arrays, [neurons_firing] returns
    one rate per distinct neuron index, in ascending index order: the
    number of spikes of that neuron at times strictly between [t0] and
    [t1], divided by the window duration [(t1 - t0)] seconds.  Three
    spikes of neuron 0 and one of neuron 1 in a window of one second give
    [[3.0, 1.0]]. *)
Theorem C6_firing_rates :
  (forall (F : Type) (Fl : Float64 F) (t_spikes : list F)
          (neurons_i : list Z) (t0 t1 : F),
      length t_spikes = length neurons_i ->
      neurons_firing t_spikes neurons_i t0 t1
      = Ok (map (fun ind =>
                   fdiv (of_int (Z.of_nat
                           (spike_count t_spikes neurons_i ind t0 t1)))
                        (fmul (fsub t1 t0) second))
                (np_unique neurons_i))
      /\ StronglySorted Z.lt (np_unique neurons_i)
      /\ forall z, In z (np_unique neurons_i) <-> In z neurons_i)
  /\ neurons_firing (F:=float) [0.125; 0.5; 0.25; 0.375]%float [0; 1; 0; 0]
                    0%float 1%float
     = Ok [3; 1]%float.
Proof.
  split; [|vm_compute; reflexivity].
  intros F Fl t_spikes neurons_i t0 t1 Hlen.
  split; [apply neurons_firing_spec; exact Hlen|].
  split; [apply np_unique_sorted | apply np_unique_In].
Qed.

Lemma C6_firing_rates_witness :
  neurons_firing (F:=float) [0.125; 0.5; 0.25; 0.375]%float [0; 1; 0; 0]
                 0%float 1%float
  = Ok (map (fun ind =>
               fdiv (of_int (Z.of_nat
                       (spike_count [0.125; 0.5; 0.25; 0.375]%float
                                    [0; 1; 0; 0] ind 0%float 1%float)))
                    (fmul (fsub 1%float 0%float) second))
            (np_unique [0; 1; 0; 0])).
Proof.
  apply (proj1 C6_firing_rates float binary64). reflexivity.
Defined.

(** ** [standard_error_I] *)

Section ErrorFacts.
Context {F : Type} `{Float64 F}.

Lemma standard_error_I_loop (I : list F) (W : Z) (l : list Z)
    (a b : list F) :
  for_in l (standard_error_I_body I W) (a, b)
  = Ok (a ++ map (fun i => mean_spec (py_slice I (i * W) ((i + 1) * W))) l,
        b ++ map (fun i => np_std (py_slice I (i * W) ((i + 1) * W))) l).
Proof.
  revert a b. induction l as [|i l IH]; intros a b.
  - simpl. rewrite !app_nil_r. reflexivity.
  - rewrite for_in_cons. unfold standard_error_I_body at 1.
    rewrite IH, np_mean_spec, <- !app_assoc. reflexivity.
Qed.

(** After the loop: the branch on [N_mean < 30]. *)
Lemma standard_error_I_branch (I : list F) (N_mean W : Z) :
  N_mean <> 0 ->
  to_int (fdiv (of_int (len I)) (of_int N_mean)) = Ok W ->
  standard_error_I I N_mean
  = let wm := window_means I N_mean W in
    let ws := window_stds I N_mean W in
    if N_mean <? 30 then
      match np_max wm with
      | Ok mx =>
          match np_min wm with
          | Ok mn => Ok (mean_spec wm, fdiv (fsub mx mn) (of_int 2))
          | Raise e => Raise e
          end
      | Raise e => Raise e
      end
    else Ok (mean_spec wm,
             fdiv (fsqrt (np_sum (zip_mul ws ws)))
                  (of_int (len (zip_mul ws ws)))).
Proof.
  intros Hnz HW. unfold standard_error_I, py_truediv.
  apply Z.eqb_neq in Hnz. rewrite Hnz.
  unfold mbind, outcome_bind. rewrite HW, standard_error_I_loop.
  simpl app. fold (window_means I N_mean W) (window_stds I N_mean W).
  rewrite np_mean_spec.
  destruct (N_mean <? 30); [|reflexivity].
  destruct (np_max _); [|reflexivity].
  destruct (np_min _); reflexivity.
Qed.

Lemma window_means_length (I : list F) (N_mean W : Z) :
  0 <= N_mean -> len (window_means I N_mean W) = N_mean.
Proof.
  intros Hn. unfold len, window_means, py_range, np_arange2.
  rewrite !length_map, length_seq. lia.
Qed.

Lemma zip_mul_length (a : list F) : length (zip_mul a a) = length a.
Proof.
  unfold zip_mul. rewrite length_map, length_combine. lia.
Qed.

Lemma window_stds_length (I : list F) (N_mean W : Z) :
  0 <= N_mean -> len (window_stds I N_mean W) = N_mean.
Proof.
  intros Hn. unfold len, window_stds, py_range, np_arange2.
  rewrite !length_map, length_seq. lia.
Qed.

End ErrorFacts.

Lemma Rtrunc_div (a b : Z) :
  0 <= a -> 0 < b -> Rtrunc (IZR a / IZR b) = a / b.
Proof.
  intros Ha Hb.
  pose proof (Z.div_mod a b ltac:(lia)) as Hdm.
  pose proof (Z.mod_pos_bound a b Hb) as Hr.
  assert (HB : (0 < IZR b)%R) by (apply IZR_lt; exact Hb).
  assert (HR0 : (0 <= IZR (a mod b))%R) by (apply IZR_le; lia).
  assert (HR1 : (IZR (a mod b) < IZR b)%R) by (apply IZR_lt; lia).
  assert (HA : IZR a = (IZR b * IZR (a / b) + IZR (a mod b))%R)
    by (rewrite <- mult_IZR, <- plus_IZR, <- Hdm; reflexivity).
  assert (Hq : (IZR a / IZR b = IZR (a / b) + IZR (a mod b) / IZR b)%R)
    by (rewrite HA; field; lra).
  assert (Hf0 : (0 <= IZR (a mod b) / IZR b)%R)
    by (apply Rle_mult_inv_pos; assumption).
  assert (Hf1 : (IZR (a mod b) / IZR b < 1)%R)
    by (apply (Rmult_lt_reg_r (IZR b)); [exact HB|];
        unfold Rdiv; rewrite Rmult_assoc, Rinv_l by lra; lra).
  apply Rtrunc_nonneg_spec; [|lra].
  assert (0 <= IZR (a / b))%R by (apply IZR_le, Z.div_pos; lia). lra.
Qed.

Lemma fold_left_Rmax_spec (r : list R) (a : R) :
  In (fold_left Rmax r a) (a :: r)
  /\ List.Forall (fun v => (v <= fold_left Rmax r a)%R) (a :: r).
Proof.
  revert a. induction r as [|b r IH]; intros a; simpl fold_left.
  - split; [left; reflexivity|]. constructor; [lra|constructor].
  - destruct (IH (Rmax a b)) as [Hin Hall].
    inversion Hall as [|? ? Hm Hr]; subst. split.
    + destruct Hin as [Hin|Hin]; [|right; right; exact Hin].
      rewrite <- Hin. unfold Rmax.
      destruct (Rle_dec a b); [right; left|left]; reflexivity.
    + pose proof (Rmax_l a b). pose proof (Rmax_r a b).
      constructor; [lra|]. constructor; [lra|exact Hr].
Qed.

Lemma fold_left_Rmin_spec (r : list R) (a : R) :
  In (fold_left Rmin r a) (a :: r)
  /\ List.Forall (fun v => (fold_left Rmin r a <= v)%R) (a :: r).
Proof.
  revert a. induction r as [|b r IH]; intros a; simpl fold_left.
  - split; [left; reflexivity|]. constructor; [lra|constructor].
  - destruct (IH (Rmin a b)) as [Hin Hall].
    inversion Hall as [|? ? Hm Hr]; subst. split.
    + destruct Hin as [Hin|Hin]; [|right; right; exact Hin].
      rewrite <- Hin. unfold Rmin.
      destruct (Rle_dec a b); [left|right; left]; reflexivity.
    + pose proof (Rmin_l a b). pose proof (Rmin_r a b).
      constructor; [lra|]. constructor; [lra|exact Hr].
Qed.

(** C10. For [N_mean >= 2], with [W = floor(len(I)/N_mean)] and the
    window means [mean(I[i*W : (i+1)*W])], [i < N_mean]:
    [standard_error_I] returns the mean of the window means together
    with half the range (max - min) / 2 of the window means when
    [N_mean < 30], and with the quadrature error of the window standard
    deviations when [N_mean >= 30]. *)
Theorem C10_standard_error_I :
  (forall (I : list R) (N_mean : Z),
      2 <= N_mean ->
      let W := len I / N_mean in
      let wm := window_means I N_mean W in
      let ws := window_stds I N_mean W in
      exists mx mn : R,
        len wm = N_mean
        /\ (In mx wm /\ List.Forall (fun v => (v <= mx)%R) wm)
        /\ (In mn wm /\ List.Forall (fun v => (mn <= v)%R) wm)
        /\ (N_mean < 30 ->
            standard_error_I I N_mean
            = Ok (mean_spec wm, ((mx - mn) / 2)%R))
        /\ (30 <= N_mean ->
            standard_error_I I N_mean
            = Ok (mean_spec wm,
                  (R_sqrt.sqrt (np_sum (zip_mul ws ws)) / IZR N_mean)%R)))
  /\ standard_error_I (F:=float) [1; 2; 3; 4; 5; 6; 7]%float 3
     = Ok (3.5, 2)%float.
Proof.
  split; [|vm_compute; reflexivity].
  intros I N_mean Hn W wm ws.
  assert (HW : to_int (fdiv (of_int (len I)) (of_int N_mean)) = Ok W).
  { simpl. f_equal. apply Rtrunc_div; unfold len; lia. }
  pose proof (standard_error_I_branch I N_mean W ltac:(lia) HW) as Hb.
  cbv zeta in Hb. fold wm ws in Hb.
  pose proof (window_means_length I N_mean W ltac:(lia)) as Hlen.
  fold wm in Hlen.
  destruct wm as [|a r] eqn:Ewm; [unfold len in Hlen; simpl in Hlen; lia|].
  exists (fold_left Rmax r a), (fold_left Rmin r a).
  split; [exact Hlen|].
  split; [apply fold_left_Rmax_spec|].
  split; [apply fold_left_Rmin_spec|].
  split.
  - intros Hlt. rewrite Hb.
    replace (N_mean <? 30) with true by (symmetry; apply Z.ltb_lt; lia).
    reflexivity.
  - intros Hge. rewrite Hb.
    replace (N_mean <? 30) with false by (symmetry; apply Z.ltb_ge; lia).
    unfold len. rewrite zip_mul_length.
    fold (len ws). unfold ws. rewrite window_stds_length by lia.
    reflexivity.
Qed.

Lemma C10_standard_error_I_witness :
  exists mx mn : R,
    standard_error_I (F:=R) [1; 2; 3; 4]%R 2
    = Ok (mean_spec (window_means [1; 2; 3; 4]%R 2 (len [1; 2; 3; 4]%R / 2)),
          ((mx - mn) / 2)%R).
Proof.
  destruct (proj1 C10_standard_error_I [1; 2; 3; 4]%R 2 ltac:(lia))
    as (mx & mn & _ & _ & _ & Hlt & _).
  exists mx, mn. apply Hlt. lia.
Defined.

(** ** [blocking] on the store *)

Section StoreFacts.
Context {F : Type} `{Float64 F}.
Implicit Types (h : gmap nat (list F)) (v : list F).

Lemma yields_ret {A} (a : A) h (P : A -> gmap nat (list F) -> Prop) :
  P a h -> yields (mret a) h P.
Proof. intros HP. exists a, h. split; [reflexivity|]. split; [reflexivity|exact HP]. Qed.

Lemma yields_bind {A B} (m : M F A) (f : A -> M F B) h
    (P : A -> gmap nat (list F) -> Prop)
    (Q : B -> gmap nat (list F) -> Prop) :
  yields m h P ->
  (forall a h1, h ⊆ h1 -> P a h1 -> yields (f a) h1 Q) ->
  yields (m ≫= f) h Q.
Proof.
  intros (a & h1 & Hm & Hsub & HP) Hf.
  destruct (Hf a h1 Hsub HP) as (b & h2 & Hfa & Hsub2 & HQ).
  exists b, h2. split; [|split].
  - unfold mbind, M_bind. rewrite Hm. exact Hfa.
  - transitivity h1; assumption.
  - exact HQ.
Qed.

Lemma yields_read h (x : nat) v :
  h !! x = Some v -> yields (read x) h (fun a h' => a = v /\ h' = h).
Proof.
  intros Hx. exists v, h. unfold read. rewrite Hx.
  split; [reflexivity|]. split; [reflexivity|]. split; reflexivity.
Qed.

Lemma yields_lift {A} (m : outcome A) (a : A) h :
  m = Ok a -> yields (lift m) h (fun a' h' => a' = a /\ h' = h).
Proof.
  intros ->. exists a, h.
  split; [reflexivity|]. split; [reflexivity|]. split; reflexivity.
Qed.

(** A new array does not touch the arrays already there. *)
Lemma yields_new_array h v :
  yields (new_array v) h (fun l h' => h' !! l = Some v).
Proof.
  exists (fresh (dom h)), (<[fresh (dom h) := v]> h).
  split; [reflexivity|]. split.
  - apply insert_subseteq. apply not_elem_of_dom. apply is_fresh.
  - apply lookup_insert_eq.
Qed.

Lemma yields_np_array h (x : nat) v :
  h !! x = Some v ->
  yields (np_array_h x) h (fun l h' => h' !! l = Some v).
Proof.
  intros Hx. unfold np_array_h.
  eapply yields_bind; [apply yields_read; exact Hx|].
  intros a h1 _ [-> ->]. apply yields_new_array.
Qed.

Lemma yields_len h (x : nat) v :
  h !! x = Some v -> yields (len_h x) h (fun n h' => n = len v).
Proof.
  intros Hx. unfold len_h.
  eapply yields_bind; [apply yields_read; exact Hx|].
  intros a h1 _ [-> ->]. apply yields_ret. reflexivity.
Qed.

Lemma yields_take h (x : nat) v (idx : list Z) (r : list F) :
  h !! x = Some v -> np_take v idx = Ok r ->
  yields (take_h x idx) h (fun l h' => h' !! l = Some r).
Proof.
  intros Hx Hr. unfold take_h.
  eapply yields_bind; [apply yields_read; exact Hx|].
  intros a h1 _ [-> ->].
  eapply yields_bind; [apply yields_lift; exact Hr|].
  intros a h2 _ [-> ->]. apply yields_new_array.
Qed.

Lemma yields_add h (a b : nat) (p q r : list F) :
  h !! a = Some p -> h !! b = Some q -> np_add p q = Ok r ->
  yields (add_h a b) h (fun l h' => h' !! l = Some r).
Proof.
  intros Ha Hb Hr. unfold add_h.
  eapply yields_bind; [apply yields_read; exact Ha|].
  intros ? h1 _ [-> ->].
  eapply yields_bind; [apply yields_read; exact Hb|].
  intros ? h2 _ [-> ->].
  eapply yields_bind; [apply yields_lift; exact Hr|].
  intros ? h3 _ [-> ->]. apply yields_new_array.
Qed.

Lemma yields_map h (f : F -> F) (a : nat) (p : list F) :
  h !! a = Some p ->
  yields (map_h f a) h (fun l h' => h' !! l = Some (map f p)).
Proof.
  intros Ha. unfold map_h.
  eapply yields_bind; [apply yields_read; exact Ha|].
  intros ? h1 _ [-> ->]. apply yields_new_array.
Qed.

Lemma yields_mean h (x : nat) v :
  h !! x = Some v -> yields (mean_h x) h (fun m h' => m = np_mean v).
Proof.
  intros Hx. unfold mean_h.
  eapply yields_bind; [apply yields_read; exact Hx|].
  intros a h1 _ [-> ->]. apply yields_ret. reflexivity.
Qed.

Lemma yields_sum h (x : nat) v :
  h !! x = Some v -> yields (sum_h x) h (fun s h' => s = np_sum v).
Proof.
  intros Hx. unfold sum_h.
  eapply yields_bind; [apply yields_read; exact Hx|].
  intros a h1 _ [-> ->]. apply yields_ret. reflexivity.
Qed.

(** [variance] on the store computes what [variance] computes on the
    contents, and leaves the arrays of the store as they are. *)
Lemma yields_variance h (x : nat) v :
  h !! x = Some v ->
  yields (variance_h x) h (fun a h' => variance v = Ok a).
Proof.
  intros Hx. unfold variance_h.
  eapply yields_bind; [apply yields_np_array; exact Hx|].
  intros x' h1 _ Hx'.
  eapply yields_bind; [apply yields_len; exact Hx'|].
  intros N h2 S2 ->.
  pose proof (lookup_weaken _ _ _ _ Hx' S2) as Hx2.
  eapply yields_bind; [apply yields_mean; exact Hx2|].
  intros m h3 S3 ->.
  pose proof (lookup_weaken _ _ _ _ Hx2 S3) as Hx3.
  eapply yields_bind; [apply yields_map; exact Hx3|].
  intros d h4 _ Hd.
  eapply yields_bind; [apply yields_map; exact Hd|].
  intros var h5 _ Hvar.
  eapply yields_bind; [apply yields_sum; exact Hvar|].
  intros s h6 _ ->.
  apply yields_ret. unfold variance. rewrite map_map. reflexivity.
Qed.

Lemma yields_blocking_body h (t : Z) (x : nat) v (acc : list F) :
  h !! x = Some v ->
  yields (blocking_body_h t (x, acc)) h
         (fun st h' =>
            exists v', h' !! fst st = Some v'
                       /\ blocking_body t (v, acc) = Ok (v', snd st)).
Proof.
  intros Hx. unfold blocking_body_h.
  eapply yields_bind; [apply yields_len; exact Hx|].
  intros N h1 S1 ->.
  pose proof (lookup_weaken _ _ _ _ Hx S1) as Hx1.
  destruct (block_steps v) as (Hodd & Heven & Hadd & Hhalf).
  eapply yields_bind; [eapply yields_take; [exact Hx1|exact Hodd]|].
  intros x1 h2 S2 Hx1'.
  pose proof (lookup_weaken _ _ _ _ Hx1 S2) as Hx2.
  eapply yields_bind; [eapply yields_take; [exact Hx2|exact Heven]|].
  intros x2 h3 S3 Hx2'.
  pose proof (lookup_weaken _ _ _ _ Hx1' S3) as Hx1''.
  eapply yields_bind; [eapply yields_add; [exact Hx1''|exact Hx2'|exact Hadd]|].
  intros s h4 _ Hs.
  eapply yields_bind; [apply yields_map; exact Hs|].
  intros xb h5 _ Hxb. rewrite Hhalf in Hxb.
  eapply yields_bind; [apply yields_variance; exact Hxb|].
  intros var h6 S6 Hvar.
  apply yields_ret. exists (reblock v). cbn [fst snd].
  split; [exact (lookup_weaken _ _ _ _ Hxb S6)|].
  unfold blocking_body. rewrite block_reblock.
  unfold mbind, outcome_bind. rewrite Hvar. reflexivity.
Qed.

Lemma yields_blocking_loop (ts : list Z) h (x : nat) v (acc : list F) :
  h !! x = Some v ->
  yields (for_in_h ts blocking_body_h (x, acc)) h
         (fun st h' =>
            exists v', h' !! fst st = Some v'
                       /\ for_in ts blocking_body (v, acc) = Ok (v', snd st)).
Proof.
  revert h x v acc. induction ts as [|t ts IH]; intros h x v acc Hx.
  - apply yields_ret. exists v. split; [exact Hx|reflexivity].
  - simpl for_in_h.
    eapply yields_bind; [apply yields_blocking_body; exact Hx|].
    intros [x' acc'] h1 _ (v' & Hx' & Hbody). cbn [fst snd] in Hx', Hbody.
    destruct (IH h1 x' v' acc' Hx') as (st & h2 & Hrun & S2 & v2 & Hst & Hloop).
    exists st, h2. split; [exact Hrun|]. split; [exact S2|].
    exists v2. split; [exact Hst|].
    rewrite for_in_cons, Hbody. exact Hloop.
Qed.

Lemma yields_blocking h (x : nat) v (k : Z) :
  h !! x = Some v ->
  yields (blocking_h x k) h (fun r h' => blocking v k = Ok r).
Proof.
  intros Hx. unfold blocking_h.
  eapply yields_bind; [apply yields_np_array; exact Hx|].
  intros x' h1 _ Hx'.
  eapply yields_bind; [apply yields_blocking_loop; exact Hx'|].
  intros st h2 _ (v' & _ & Hloop).
  apply yields_ret. unfold blocking. rewrite Hloop. reflexivity.
Qed.

End StoreFacts.

(** C9. [blocking] leaves the caller's array as it was: run on a store
    where the reference [x] holds the samples [v], it returns the
    estimates that [blocking] computes from [v], in a store where [x]
    still holds [v] and every other array is unchanged; so does the
    [variance] it calls. *)
Theorem C9_blocking_keeps_input :
  forall (F : Type) (Fl : Float64 F) (h : gmap nat (list F)) (x : nat)
         (v : list F) (k : Z),
    h !! x = Some v ->
    (exists r h',
        blocking_h x k h = Ok (r, h')
        /\ h' !! x = Some v
        /\ h ⊆ h'
        /\ blocking v k = Ok r)
    /\ (exists a h',
          variance_h x h = Ok (a, h')
          /\ h' !! x = Some v
          /\ h ⊆ h'
          /\ variance v = Ok a).
Proof.
  intros F Fl h x v k Hx. split.
  - destruct (yields_blocking h x v k Hx) as (r & h' & Hrun & Hsub & Hr).
    exists r, h'. split; [exact Hrun|].
    split; [exact (lookup_weaken _ _ _ _ Hx Hsub)|].
    split; [exact Hsub | exact Hr].
  - destruct (yields_variance h x v Hx) as (a & h' & Hrun & Hsub & Ha).
    exists a, h'. split; [exact Hrun|].
    split; [exact (lookup_weaken _ _ _ _ Hx Hsub)|].
    split; [exact Hsub | exact Ha].
Qed.

Lemma C9_blocking_keeps_input_witness :
  exists r h',
    blocking_h (F:=float) 0%nat 2 {[ 0%nat := [1; 2; 3; 4; 5]%float ]}
    = Ok (r, h')
    /\ h' !! 0%nat = Some [1; 2; 3; 4; 5]%float.
Proof.
  destruct (C9_blocking_keeps_input float binary64
              {[ 0%nat := [1; 2; 3; 4; 5]%float ]} 0%nat
              [1; 2; 3; 4; 5]%float 2)
    as [(r & h' & Hrun & Hx & _) _].
  - reflexivity.
  - exists r, h'. split; [exact Hrun | exact Hx].
Defined.

(** * Further properties of the routines *)

(** ** Sample counts of [blocking] *)

Section BlockCounts.
Context {F : Type} `{Float64 F}.

Lemma positions_lengths (y : list F) :
  length (even_positions y) = ((length y + 1) / 2)%nat
  /\ length (odd_positions y) = (length y / 2)%nat.
Proof.
  induction y as [|a y [IHe IHo]]; [split; reflexivity|].
  simpl even_positions. simpl odd_positions. simpl length.
  rewrite IHe, IHo. split.
  - replace (S (length y) + 1)%nat with (length y + 1 * 2)%nat by lia.
    rewrite Nat.div_add by lia. lia.
  - f_equal. lia.
Qed.

Lemma even_len_half (x : list F) : (even_len x / 2 = length x / 2)%nat.
Proof.
  unfold even_len. destruct (Nat.odd (length x)) eqn:E; [|reflexivity].
  apply Nat.odd_spec in E. destruct E as [m Hm]. rewrite Hm.
  replace (2 * m + 1 - 1)%nat with (m * 2)%nat by lia.
  rewrite Nat.div_mul by lia.
  replace (2 * m + 1)%nat with (1 + m * 2)%nat by lia.
  rewrite Nat.div_add by lia. reflexivity.
Qed.

(** One re-blocking halves the number of samples, rounding down. *)
Lemma reblock_length (x : list F) : length (reblock x) = (length x / 2)%nat.
Proof.
  unfold reblock, pairwise_average.
  rewrite length_map, length_combine.
  destruct (positions_lengths (drop_odd_tail x)) as [He Ho].
  rewrite positions_length
    by (rewrite drop_odd_tail_length; apply even_len_even).
  rewrite Ho, drop_odd_tail_length, even_len_half. lia.
Qed.

Lemma reblock_iter_length (x : list F) (i : nat) :
  length (Nat.iter i reblock x) = (length x / 2 ^ i)%nat.
Proof.
  induction i as [|i IH].
  - simpl. symmetry. apply Nat.div_1_r.
  - simpl Nat.iter. rewrite reblock_length, IH.
    rewrite Nat.pow_succ_r', (Nat.mul_comm 2).
    apply Nat.Div0.div_div.
Qed.

Lemma blocking_nth (x : list F) (k i : nat) :
  (i < k)%nat ->
  exists vs,
    blocking x (Z.of_nat k) = Ok vs
    /\ nth_error vs i = Some (variance_spec (Nat.iter (S i) reblock x)).
Proof.
  intros Hi. eexists. split; [apply blocking_spec|].
  rewrite nth_error_map, nth_error_seq.
  replace (i <? k)%nat with true by (symmetry; apply Nat.ltb_lt; exact Hi).
  reflexivity.
Qed.

End BlockCounts.

(** X1. The [i]-th estimate of [blocking x k] is the variance of a
    sequence of [len(x) // 2^(i+1)] samples; its divisor [n*(n-1)] is
    zero, and the estimate a quotient by zero, exactly when
    [len(x) < 2^(i+2)]. *)
Theorem blocking_sample_counts :
  forall (F : Type) (Fl : Float64 F) (x : list F) (k i : nat),
    (i < k)%nat ->
    exists (vs y : list F) (v : F),
      blocking x (Z.of_nat k) = Ok vs
      /\ nth_error vs i = Some v
      /\ variance y = Ok v
      /\ length y = (length x / 2 ^ (i + 1))%nat
      /\ (len y * (len y - 1) = 0 <-> (length x < 2 ^ (i + 2))%nat).
Proof.
  intros F Fl x k i Hi.
  destruct (blocking_nth x k i Hi) as (vs & Hvs & Hnth).
  exists vs, (Nat.iter (S i) reblock x),
         (variance_spec (Nat.iter (S i) reblock x)).
  split; [exact Hvs|]. split; [exact Hnth|].
  split; [apply variance_eq_spec|].
  pose proof (reblock_iter_length x (S i)) as Hlen.
  replace (i + 1)%nat with (S i) by lia.
  split; [exact Hlen|].
  unfold len. rewrite Hlen.
  replace (i + 2)%nat with (S (S i)) by lia.
  rewrite (Nat.pow_succ_r' 2 (S i)).
  assert (Hp : (0 < 2 ^ S i)%nat) by (apply Nat.neq_0_lt_0, Nat.pow_nonzero; lia).
  split.
  - intros Hz.
    assert (Hq : (length x / 2 ^ S i < 2)%nat) by nia.
    pose proof (Nat.div_mod_eq (length x) (2 ^ S i)) as Hdm.
    pose proof (Nat.mod_upper_bound (length x) (2 ^ S i) ltac:(lia)) as Hm.
    nia.
  - intros Hlt.
    assert (Hq : (length x / 2 ^ S i < 2)%nat)
      by (apply Nat.Div0.div_lt_upper_bound; lia).
    destruct (length x / 2 ^ S i)%nat as [|[|n]]; simpl; lia.
Qed.

Lemma blocking_sample_counts_witness :
  exists (vs y : list float) (v : float),
    blocking (F:=float) [1; 2; 3; 4; 5; 6; 7; 8; 9]%float 4 = Ok vs
    /\ nth_error vs 2 = Some v
    /\ variance y = Ok v
    /\ length y = 1%nat.
Proof.
  destruct (blocking_sample_counts float binary64
              [1; 2; 3; 4; 5; 6; 7; 8; 9]%float 4 2 ltac:(lia))
    as (vs & y & v & Hb & Hn & Hv & Hl & _).
  exists vs, y, v. repeat split; assumption.
Defined.

(** ** The Gaussian window at a width that is not positive *)


(** ** [variance] over the reals *)

Lemma variance_real (x : list R) :
  variance x
  = Ok (Rsum (map (fun a => (a - Rsum x / IZR (len x))
                            * (a - Rsum x / IZR (len x)))%R x)
        / IZR (len x * (len x - 1)))%R.
Proof.
  unfold variance, np_mean, fpow2. rewrite !np_sum_Rsum. reflexivity.
Qed.

Lemma Rsum_squares_nonneg (f : R -> R) (x : list R) :
  (0 <= Rsum (map (fun a => f a * f a)%R x))%R.
Proof.
  induction x as [|a x IH]; simpl; [lra|].
  pose proof (Rle_0_sqr (f a)) as Hs. unfold Rsqr in Hs. lra.
Qed.

Lemma variance_divisor_pos {A} (x : list A) :
  (2 <= length x)%nat -> (0 < IZR (len x * (len x - 1)))%R.
Proof.
  intros Hx. apply IZR_lt. unfold len. nia.
Qed.

Lemma Rsum_map_shift (c : R) (x : list R) :
  Rsum (map (fun a => a + c)%R x) = (Rsum x + IZR (len x) * c)%R.
Proof.
  unfold len. induction x as [|a x IH];
    [change (0 = 0 + IZR 0 * c)%R; lra|].
  simpl length. rewrite Nat2Z.inj_succ, succ_IZR.
  unfold Rsum in *. cbn [map fold_right]. rewrite IH. lra.
Qed.

Lemma Rsum_map_scale (c : R) (f : R -> R) (x : list R) :
  Rsum (map (fun a => c * f a)%R x) = (c * Rsum (map f x))%R.
Proof.
  induction x as [|a x IH]; simpl; [lra|]. rewrite IH. lra.
Qed.

(** X2. Over the reals, the variance of at least 2 samples is not
    negative. *)
Theorem variance_nonneg :
  forall x : list R,
    (2 <= length x)%nat ->
    exists v : R, variance x = Ok v /\ (0 <= v)%R.
Proof.
  intros x Hx. eexists. split; [apply variance_real|].
  apply Rle_mult_inv_pos.
  - apply Rsum_squares_nonneg
      with (f := fun a => (a - Rsum x / IZR (len x))%R).
  - apply variance_divisor_pos. exact Hx.
Qed.

Lemma variance_nonneg_witness :
  exists v : R, variance [0; 2]%R = Ok v /\ (0 <= v)%R.
Proof. apply (variance_nonneg [0; 2]%R). simpl. lia. Defined.

(** X3. Over the reals, for at least 2 samples: adding a constant to
    every sample leaves the variance as it is, and multiplying every
    sample by [c] multiplies the variance by [c^2]. *)
Theorem variance_shift_scale :
  forall (x : list R) (c : R),
    (2 <= length x)%nat ->
    exists v : R,
      variance x = Ok v
      /\ variance (map (fun a => a + c)%R x) = Ok v
      /\ variance (map (fun a => c * a)%R x) = Ok (c * c * v)%R.
Proof.
  intros x c Hx. eexists. split; [apply variance_real|].
  assert (HN : (0 < IZR (len x))%R) by (apply IZR_lt; unfold len; lia).
  pose proof (variance_divisor_pos x Hx) as HD.
  split.
  - rewrite variance_real. unfold len. rewrite length_map. fold (len x).
    rewrite Rsum_map_shift, map_map. do 3 f_equal.
    apply map_ext. intros a. field. lra.
  - rewrite variance_real. unfold len. rewrite length_map. fold (len x).
    rewrite (Rsum_map_scale c (fun a => a)), map_id, map_map. f_equal.
    set (g := fun a => ((a - Rsum x / IZR (len x))
                        * (a - Rsum x / IZR (len x)))%R).
    assert (Hs : Rsum (map (fun a => (c * a - c * Rsum x / IZR (len x))
                                     * (c * a - c * Rsum x / IZR (len x)))%R
                           x)
                 = (c * c * Rsum (map g x))%R).
    { rewrite <- Rsum_map_scale. f_equal. apply map_ext. intros a.
      unfold g. field. lra. }
    rewrite Hs. unfold Rdiv. ring.
Qed.

Lemma variance_shift_scale_witness :
  exists v : R,
    variance [0; 2]%R = Ok v
    /\ variance (map (fun a => a + 10)%R [0; 2]%R) = Ok v.
Proof.
  destruct (variance_shift_scale [0; 2]%R 10%R) as (v & Hv & Hs & _).
  - simpl. lia.
  - exists v. split; assumption.
Defined.

(** ** [blocking] of a constant signal *)

Lemma positions_Forall {F : Type} (P : F -> Prop) (y : list F) :
  List.Forall P y ->
  List.Forall P (even_positions y) /\ List.Forall P (odd_positions y).
Proof.
  induction 1 as [|a y Ha _ [IHe IHo]]; [split; constructor|].
  split; [constructor; assumption|exact IHe].
Qed.

Lemma Forall_eq_repeat_length {A} (c : A) (l : list A) :
  List.Forall (eq c) l -> l = repeat c (length l).
Proof. induction 1 as [|a l <- _ IH]; simpl; [reflexivity|]. f_equal. exact IH. Qed.

Lemma in_firstn {A} (a : A) (n : nat) (l : list A) :
  In a (firstn n l) -> In a l.
Proof.
  intros Ha. rewrite <- (firstn_skipn n l). apply in_or_app. left. exact Ha.
Qed.

Lemma reblock_repeat (c : R) (n : nat) :
  reblock (repeat c n) = repeat c (n / 2).
Proof.
  rewrite <- (repeat_length c n) at 2. rewrite <- reblock_length.
  apply Forall_eq_repeat_length.
  unfold reblock, pairwise_average.
  assert (Hy : List.Forall (eq c) (drop_odd_tail (repeat c n))).
  { rewrite drop_odd_tail_firstn. apply List.Forall_forall. intros a Ha.
    apply in_firstn, repeat_spec in Ha. congruence. }
  destruct (positions_Forall _ _ Hy) as [He Ho].
  rewrite List.Forall_forall in He, Ho.
  apply List.Forall_forall. intros a Ha.
  apply in_map_iff in Ha. destruct Ha as ([p q] & <- & Hpq).
  rewrite <- (He p) by (eapply in_combine_l; exact Hpq).
  rewrite <- (Ho q) by (eapply in_combine_r; exact Hpq).
  simpl. lra.
Qed.

Lemma reblock_iter_repeat (c : R) (n i : nat) :
  Nat.iter i reblock (repeat c n) = repeat c (n / 2 ^ i).
Proof.
  induction i as [|i IH].
  - rewrite Nat.pow_0_r, Nat.div_1_r. reflexivity.
  - simpl Nat.iter. rewrite IH, reblock_repeat.
    rewrite Nat.Div0.div_div, Nat.pow_succ_r', (Nat.mul_comm 2).
    reflexivity.
Qed.

Lemma variance_repeat (c : R) (m : nat) :
  (2 <= m)%nat -> variance (repeat c m) = Ok 0%R.
Proof.
  intros Hm. rewrite variance_real. f_equal.
  assert (Hx : (2 <= length (repeat c m))%nat) by (rewrite repeat_length; lia).
  pose proof (variance_divisor_pos _ Hx) as HD.
  assert (HN : (0 < IZR (len (repeat c m)))%R)
    by (apply IZR_lt; unfold len; lia).
  assert (Hs : Rsum (repeat c m) = (IZR (len (repeat c m)) * c)%R).
  { unfold len. rewrite repeat_length, <- INR_IZR_INZ. apply Rsum_repeat. }
  rewrite Hs.
  assert (H0 : Rsum (map (fun a =>
                 (a - IZR (len (repeat c m)) * c / IZR (len (repeat c m)))
                 * (a - IZR (len (repeat c m)) * c / IZR (len (repeat c m))))%R
               (repeat c m)) = 0%R).
  { generalize (IZR (len (repeat c m))) HN. intros N HN'.
    clear -HN'. induction m as [|m IH]; [reflexivity|].
    simpl repeat. simpl map. unfold Rsum in *. simpl fold_right.
    rewrite IH. field. lra. }
  rewrite H0. unfold Rdiv. lra.
Qed.

(** X4. Over the reals, [blocking] of a constant signal gives the
    estimate 0 at every level that still has at least 2 samples
    ([2^(i+2) <= len(x)]). *)
Theorem blocking_constant_signal :
  forall (c : R) (n k i : nat),
    (i < k)%nat -> (2 ^ (i + 2) <= n)%nat ->
    exists vs : list R,
      blocking (repeat c n) (Z.of_nat k) = Ok vs
      /\ nth_error vs i = Some 0%R.
Proof.
  intros c n k i Hi Hn.
  destruct (blocking_nth (repeat c n) k i Hi) as (vs & Hvs & Hnth).
  exists vs. split; [exact Hvs|]. rewrite Hnth. f_equal.
  rewrite reblock_iter_repeat.
  assert (Hm : (2 <= n / 2 ^ S i)%nat).
  { apply Nat.div_le_lower_bound; [apply Nat.pow_nonzero; lia|].
    replace (i + 2)%nat with (S (S i)) in Hn by lia.
    rewrite (Nat.pow_succ_r' 2 (S i)) in Hn. lia. }
  pose proof (variance_repeat c _ Hm) as Hv.
  rewrite variance_eq_spec in Hv. congruence.
Qed.

Lemma blocking_constant_signal_witness :
  exists vs : list R,
    blocking (repeat 7%R 8) 2 = Ok vs /\ nth_error vs 1 = Some 0%R.
Proof.
  apply (blocking_constant_signal 7%R 8 2 1); simpl; lia.
Defined.

(** ** [smoothing_b]: lengths and errors *)

Section SmoothingEdges.
Context {F : Type} `{Float64 F} `{FloatFun F}.

Lemma np_convolve_same_empty_signal (k : list F) :
  np_convolve_same [] k = Raise ValueError.
Proof. destruct k; reflexivity. Qed.

Lemma np_convolve_same_empty_kernel (x : list F) :
  np_convolve_same x [] = Raise ValueError.
Proof. destruct x; reflexivity. Qed.

Lemma np_convolve_same_long_signal (x k : list F) :
  k <> [] -> (length k <= length x)%nat ->
  np_convolve_same x k = Ok (np_correlate_same x (rev k)).
Proof.
  intros Hk Hle. unfold np_convolve_same, len.
  replace (length x <? length k)%nat with false
    by (symmetry; apply Nat.ltb_ge; exact Hle).
  destruct k as [|b k]; [congruence|]. simpl length in *.
  destruct x as [|a x]; [simpl in Hle; lia|]. reflexivity.
Qed.

Lemma np_arange2_empty (lo hi : Z) : hi <= lo -> np_arange2 lo hi = [].
Proof.
  intros Hle. unfold np_arange2.
  replace (Z.to_nat (hi - lo)) with 0%nat by lia. reflexivity.
Qed.

End SmoothingEdges.

(** X5. When the window is not longer than the signal, [smoothing_b]
    returns a signal of the length of its input. *)
Theorem smoothing_b_same_length :
  forall (F : Type) (Fl : Float64 F) (FF : FloatFun F)
         (x : list F) (window : string) (width ddt : F) (k : list F),
    select_window window width ddt = Ok k ->
    k <> [] -> (length k <= length x)%nat ->
    exists y, smoothing_b x window width ddt = Ok y
              /\ length y = length x.
Proof.
  intros F Fl FF x window width ddt k Hk Hne Hle.
  unfold smoothing_b. rewrite Hk. unfold mbind, outcome_bind.
  rewrite np_convolve_same_long_signal.
  - eexists. split; [reflexivity|]. apply np_correlate_same_length.
  - intros Hn. apply Hne. apply (f_equal (@length F)) in Hn.
    rewrite normalise_length in Hn. destruct k; [reflexivity|discriminate].
  - rewrite normalise_length. exact Hle.
Qed.

Lemma smoothing_b_same_length_witness :
  exists y, smoothing_b (F:=R) [1; 2; 3; 4; 5]%R "flat" 3%R 1%R = Ok y
            /\ length y = length [1; 2; 3; 4; 5]%R.
Proof.
  assert (Ht : Rtrunc (3 / 2 / 1) = 1)
    by (apply Rtrunc_nonneg_spec; simpl; lra).
  apply (smoothing_b_same_length R real real_fun _ _ _ _ [1; 1; 1]%R).
  - unfold select_window, flat_window. simpl. rewrite Ht. reflexivity.
  - discriminate.
  - simpl. lia.
Defined.

(** X6. On an empty signal [smoothing_b] always raises: the error of
    the window when there is one, [ValueError] from [np.convolve]
    otherwise. *)
Theorem smoothing_b_empty_signal :
  forall (F : Type) (Fl : Float64 F) (FF : FloatFun F)
         (window : string) (width ddt : F),
    raises (smoothing_b [] window width ddt)
    /\ forall k, select_window window width ddt = Ok k ->
                 smoothing_b [] window width ddt = Raise ValueError.
Proof.
  intros F Fl FF window width ddt. unfold smoothing_b.
  destruct (select_window window width ddt) as [k|e].
  - unfold mbind, outcome_bind. rewrite np_convolve_same_empty_signal.
    split; [exists ValueError; reflexivity|]. intros k' _. reflexivity.
  - split; [exists e; reflexivity|]. intros k' Hk. discriminate Hk.
Qed.

Lemma smoothing_b_empty_signal_witness :
  smoothing_b (F:=R) [] "flat" 3%R 1%R = Raise ValueError.
Proof.
  assert (Ht : Rtrunc (3 / 2 / 1) = 1)
    by (apply Rtrunc_nonneg_spec; simpl; lra).
  apply (proj2 (smoothing_b_empty_signal R real real_fun "flat" 3%R 1%R)
               [1; 1; 1]%R).
  unfold select_window, flat_window. simpl. rewrite Ht. reflexivity.
Defined.

(** X7. A flat window whose integer part [int(width/2/ddt)] is negative
    makes [smoothing_b] raise [ValueError] ([np.ones] of a negative
    size), whatever the signal. *)
Theorem smoothing_b_flat_negative_width :
  forall (F : Type) (Fl : Float64 F) (FF : FloatFun F)
         (x : list F) (width ddt : F) (w : Z),
    to_int (fdiv (fdiv width (of_int 2)) ddt) = Ok w -> w < 0 ->
    smoothing_b x "flat" width ddt = Raise ValueError.
Proof.
  intros F Fl FF x width ddt w Hw Hneg.
  rewrite smoothing_b_flat. unfold flat_window. rewrite Hw.
  unfold mbind, outcome_bind, np_ones.
  replace (w * 2 + 1 <? 0) with true by (symmetry; apply Z.ltb_lt; lia).
  reflexivity.
Qed.

Lemma smoothing_b_flat_negative_width_witness :
  smoothing_b (F:=R) [1; 2; 3]%R "flat" (-4)%R 1%R = Raise ValueError.
Proof.
  apply (smoothing_b_flat_negative_width R real real_fun _ _ _ (-2)).
  - simpl. f_equal. unfold Rtrunc.
    destruct (Rle_dec 0 (-4 / 2 / 1)) as [Hp|_]; [lra|].
    replace (- (-4 / 2 / 1))%R with (IZR 2) by (simpl; lra).
    rewrite Int_part_IZR. reflexivity.
  - lia.
Defined.

(** X8. A Gaussian window whose rounded half-width
    [int(np.round(2*width/ddt))] is negative is empty, and
    [smoothing_b] raises [ValueError], whatever the signal. *)
Theorem smoothing_b_gaussian_negative_width :
  forall (F : Type) (Fl : Float64 F) (FF : FloatFun F)
         (x : list F) (width ddt : F) (w : Z),
    to_int (fround (fdiv (fmul (of_int 2) width) ddt)) = Ok w -> w < 0 ->
    gaussian_window width ddt = Ok []
    /\ smoothing_b x "gaussian" width ddt = Raise ValueError.
Proof.
  intros F Fl FF x width ddt w Hw Hneg.
  assert (Hg : gaussian_window width ddt = Ok []).
  { unfold gaussian_window. rewrite Hw. unfold mbind, outcome_bind.
    rewrite np_arange2_empty by lia. reflexivity. }
  split; [exact Hg|].
  unfold smoothing_b, select_window. simpl String.eqb. rewrite Hg.
  unfold mbind, outcome_bind. apply np_convolve_same_empty_kernel.
Qed.

Lemma smoothing_b_gaussian_negative_width_witness :
  smoothing_b (F:=R) [1; 2; 3]%R "gaussian" (-1)%R 1%R = Raise ValueError.
Proof.
  apply (smoothing_b_gaussian_negative_width R real real_fun _ _ _ (-2)).
  - simpl. f_equal. rewrite Rtrunc_IZR.
    apply Rrint_spec_up. simpl. lra.
  - lia.
Defined.

(** ** The flat window as a moving average *)

Lemma fold_dot_repeat (p : list R) (c : R) (m : nat) (a : R) :
  fold_left (fun acc ab => (acc + fst ab * snd ab)%R)
            (combine p (repeat c m)) a
  = (a + c * Rsum (firstn m p))%R.
Proof.
  revert m a. induction p as [|b p IH]; intros [|m] a; simpl;
    try (unfold Rsum; simpl; lra).
  rewrite IH. unfold Rsum. simpl. lra.
Qed.

Lemma dot_repeat (p : list R) (c : R) (m : nat) :
  dot p (repeat c m) = (c * Rsum (firstn m p))%R.
Proof.
  unfold dot. simpl of_int.
  change (fold_left (fun acc ab => (acc + fst ab * snd ab)%R)
                    (combine p (repeat c m)) 0%R
          = (c * Rsum (firstn m p))%R).
  rewrite fold_dot_repeat. lra.
Qed.

Lemma skipn_repeat_sub {A} (c : A) (j n : nat) :
  skipn j (repeat c n) = repeat c (n - j).
Proof.
  revert n. induction j as [|j IH]; intros n.
  - rewrite Nat.sub_0_r. reflexivity.
  - destruct n as [|n]; [reflexivity|]. simpl. apply IH.
Qed.

(** Correlating with a constant window of [2h+1] weights [c] sums the
    samples of the centred window and multiplies by [c]. *)
Lemma np_correlate_same_constant (x : list R) (c : R) (h : nat) :
  np_correlate_same x (repeat c (2 * h + 1))
  = map (fun i => (c * window_sum x h i)%R) (seq 0 (length x)).
Proof.
  unfold np_correlate_same, len. rewrite np_arange_of_nat, map_map.
  rewrite repeat_length.
  replace (Z.of_nat (2 * h + 1) / 2) with (Z.of_nat h)
    by (apply Z.div_unique with 1; lia).
  apply map_ext. intros i.
  replace (Z.to_nat (Z.of_nat i - Z.of_nat h)) with (i - h)%nat by lia.
  replace (Z.to_nat (- (Z.of_nat i - Z.of_nat h))) with (h - i)%nat by lia.
  rewrite skipn_repeat_sub, dot_repeat. unfold window_sum.
  do 3 f_equal. lia.
Qed.

Lemma flat_window_real_ones (width ddt : R) :
  0 <= Rtrunc (width / 2 / ddt) ->
  flat_window width ddt
  = Ok (repeat 1%R (2 * Z.to_nat (Rtrunc (width / 2 / ddt)) + 1)).
Proof.
  intros Hw.
  rewrite (flat_window_ones (F:=R) width ddt (Rtrunc (width / 2 / ddt)))
    by (reflexivity || exact Hw).
  change (of_int (F:=R) 1) with 1%R. do 2 f_equal. lia.
Qed.

Lemma normalise_real_ones (n : nat) :
  (0 < n)%nat -> normalise (repeat 1%R n) = repeat (/ INR n)%R n.
Proof.
  intros Hn. rewrite normalise_repeat, py_sum_Rsum, Rsum_repeat.
  f_equal. simpl.
  assert (0 < INR n)%R by (apply lt_0_INR; exact Hn). field. lra.
Qed.

(** X9. Over the reals, smoothing with a flat window of [2w+1] samples
    that fits in the signal is the centred moving average with zero
    padding: output [i] is the sum of the samples [x[i-w .. i+w]] that
    exist, divided by [2w+1]. *)
Theorem smoothing_b_flat_moving_average :
  forall (x : list R) (width ddt : R),
    0 <= Rtrunc (width / 2 / ddt) ->
    2 * Rtrunc (width / 2 / ddt) + 1 <= len x ->
    smoothing_b x "flat" width ddt
    = Ok (map (fun i =>
                 (window_sum x (Z.to_nat (Rtrunc (width / 2 / ddt))) i
                  / IZR (2 * Rtrunc (width / 2 / ddt) + 1))%R)
              (seq 0 (length x))).
Proof.
  intros x width ddt Hw Hfit.
  set (w := Rtrunc (width / 2 / ddt)) in *.
  rewrite smoothing_b_flat, flat_window_real_ones by exact Hw. fold w.
  rewrite normalise_real_ones by lia.
  rewrite np_convolve_same_long_signal.
  - rewrite rev_repeat, np_correlate_same_constant. f_equal.
    apply map_ext. intros i.
    rewrite INR_IZR_INZ.
    replace (Z.of_nat (2 * Z.to_nat w + 1)) with (2 * w + 1) by lia.
    unfold Rdiv. lra.
  - destruct (2 * Z.to_nat w + 1)%nat eqn:E; [lia|discriminate].
  - rewrite repeat_length. unfold len in Hfit. lia.
Qed.

Lemma smoothing_b_flat_moving_average_witness :
  smoothing_b (F:=R) [3; 6; 9; 12]%R "flat" 3%R 1%R
  = Ok (map (fun i => (window_sum [3; 6; 9; 12]%R
                         (Z.to_nat (Rtrunc (3 / 2 / 1))) i
                       / IZR (2 * Rtrunc (3 / 2 / 1) + 1))%R)
            (seq 0 (length [3; 6; 9; 12]%R))).
Proof.
  assert (Ht : Rtrunc (3 / 2 / 1) = 1)
    by (apply Rtrunc_nonneg_spec; simpl; lra).
  apply (smoothing_b_flat_moving_average [3; 6; 9; 12]%R 3%R 1%R).
  - rewrite Ht. lia.
  - rewrite Ht. unfold len. simpl. lia.
Defined.

Lemma map_nth_seq_id {A} (x : list A) (d : A) :
  map (fun i => nth i x d) (seq 0 (length x)) = x.
Proof.
  induction x as [|a x IH]; [reflexivity|].
  simpl length. rewrite <- cons_seq, <- seq_shift, map_cons, map_map.
  simpl. f_equal. exact IH.
Qed.

Lemma window_sum_zero (x : list R) (i : nat) :
  (i < length x)%nat -> window_sum x 0 i = nth i x 0%R.
Proof.
  unfold window_sum. rewrite Nat.sub_0_r, Nat.add_0_r.
  replace (i + 1 - i)%nat with 1%nat by lia.
  revert i. induction x as [|a x IH]; intros i Hi; [simpl in Hi; lia|].
  destruct i as [|i].
  - unfold Rsum. simpl. lra.
  - simpl skipn. simpl nth. apply IH. simpl in Hi. lia.
Qed.

(** X10. Over the reals, a flat window narrower than two sampling
    intervals ([int(width/2/ddt) = 0]) has one sample and leaves a
    non-empty signal as it is. *)
Theorem smoothing_b_flat_narrow_identity :
  forall (x : list R) (width ddt : R),
    Rtrunc (width / 2 / ddt) = 0 -> x <> [] ->
    smoothing_b x "flat" width ddt = Ok x.
Proof.
  intros x width ddt Hw Hx.
  rewrite smoothing_b_flat, flat_window_real_ones by lia. rewrite Hw.
  change (2 * Z.to_nat 0 + 1)%nat with (2 * 0 + 1)%nat.
  rewrite normalise_real_ones by lia.
  rewrite np_convolve_same_long_signal.
  - rewrite rev_repeat, np_correlate_same_constant. f_equal.
    rewrite <- (map_nth_seq_id x 0%R) at 2.
    apply map_ext_in. intros i Hi. apply in_seq in Hi.
    rewrite window_sum_zero by lia. simpl. lra.
  - discriminate.
  - destruct x; [congruence|]. simpl. lia.
Qed.

Lemma smoothing_b_flat_narrow_identity_witness :
  smoothing_b (F:=R) [3; 6; 9]%R "flat" 1%R 1%R = Ok [3; 6; 9]%R.
Proof.
  apply (smoothing_b_flat_narrow_identity [3; 6; 9]%R 1%R 1%R).
  - apply Rtrunc_nonneg_spec; simpl; lra.
  - discriminate.
Defined.

(** ** The shape of the Gaussian window *)

Lemma rev_seq_0 (n : nat) :
  rev (seq 0 n) = map (fun i => (n - 1 - i)%nat) (seq 0 n).
Proof.
  induction n as [|n IH]; [reflexivity|].
  rewrite seq_S at 1. rewrite rev_app_distr. simpl rev. simpl app.
  rewrite IH.
  rewrite <- cons_seq, <- seq_shift, map_cons, map_map.
  f_equal; [lia|]. apply map_ext. intros i. lia.
Qed.

Lemma rev_np_arange2_symmetric (wd : Z) :
  0 <= wd ->
  rev (np_arange2 (- wd) (wd + 1)) = map Z.opp (np_arange2 (- wd) (wd + 1)).
Proof.
  intros Hwd. unfold np_arange2.
  rewrite <- map_rev, rev_seq_0, !map_map.
  apply map_ext_in. intros i Hi. apply in_seq in Hi. lia.
Qed.

Lemma exp_le_1 (t : R) : (t <= 0)%R -> (exp t <= 1)%R.
Proof.
  intros [Hlt | ->].
  - rewrite <- exp_0. left. apply exp_increasing. exact Hlt.
  - rewrite exp_0. lra.
Qed.

(** X11. Over the reals, for positive [width] and [ddt], the Gaussian
    window has [2*width_dt + 1] weights, [width_dt] the rounded
    [2*width/ddt]; it is symmetric about its centre, the central weight
    is 1 and every weight lies in (0, 1]. *)
Theorem gaussian_window_shape :
  forall width ddt : R,
    (0 < width)%R -> (0 < ddt)%R ->
    exists k : list R,
      gaussian_window width ddt = Ok k
      /\ len k = 2 * Rrint (2 * width / ddt) + 1
      /\ rev k = k
      /\ nth_error k (Z.to_nat (Rrint (2 * width / ddt))) = Some 1%R
      /\ List.Forall (fun a => (0 < a <= 1)%R) k.
Proof.
  intros width ddt Hwidth Hddt.
  assert (Hq : (0 < width / ddt)%R) by (apply Rdiv_lt_0_compat; assumption).
  assert (Hv : (0 <= 2 * width / ddt)%R) by (unfold Rdiv in *; nra).
  pose proof (Rrint_nonneg _ Hv) as Hwd.
  set (wd := Rrint (2 * width / ddt)) in *.
  eexists. split; [apply gaussian_window_real|]. fold wd.
  split; [|split; [|split]].
  - unfold len, np_arange2. rewrite !length_map, length_seq. lia.
  - rewrite <- map_rev, rev_np_arange2_symmetric by exact Hwd.
    rewrite map_map. apply map_ext. intros j.
    do 4 f_equal. lia.
  - unfold np_arange2. rewrite !nth_error_map, nth_error_seq.
    replace (Z.to_nat wd <? Z.to_nat (wd + 1 - - wd))%nat with true
      by (symmetry; apply Nat.ltb_lt; lia).
    simpl option_map. f_equal.
    replace (- wd + Z.of_nat (Z.to_nat wd)) with 0 by lia.
    change (IZR (- 0 ^ 2)) with 0%R.
    replace (0 * 1 / (2 * (width / ddt * (width / ddt))))%R with 0%R
      by (unfold Rdiv; lra).
    apply exp_0.
  - apply List.Forall_forall. intros a Ha.
    apply in_map_iff in Ha. destruct Ha as (j & <- & _).
    split; [apply exp_pos|]. apply exp_le_1.
    assert (Hj : (IZR (- j ^ 2) <= 0)%R)
      by (apply IZR_le; pose proof (Z.pow_nonneg j 2); nia).
    assert (Hd : (0 < 2 * (width / ddt * (width / ddt)))%R) by nra.
    unfold Rdiv at 1. rewrite Rmult_1_r.
    pose proof (Rinv_0_lt_compat _ Hd) as Hi. nra.
Qed.

Lemma gaussian_window_shape_witness :
  exists k : list R,
    gaussian_window 1%R 1%R = Ok k /\ rev k = k.
Proof.
  destruct (gaussian_window_shape 1%R 1%R) as (k & Hk & _ & Hr & _);
    [lra|lra|].
  exists k. split; assumption.
Defined.

(** ** [neurons_firing]: errors, spike conservation, spike order *)

Lemma np_unique_nonempty (l : list Z) : l <> [] -> np_unique l <> [].
Proof.
  destruct l as [|z l]; [congruence|]. intros _ Hnil.
  assert (Hin : In z (np_unique (z :: l)))
    by (apply np_unique_In; left; reflexivity).
  rewrite Hnil in Hin. exact Hin.
Qed.

Lemma StronglySorted_lt_NoDup (l : list Z) :
  StronglySorted Z.lt l -> List.NoDup l.
Proof.
  induction 1 as [|a l _ IH Ha]; constructor; [|exact IH].
  intros Hin. rewrite List.Forall_forall in Ha. specialize (Ha a Hin). lia.
Qed.

(** Two ascending lists with the same elements are the same list. *)
Lemma StronglySorted_lt_unique (l l' : list Z) :
  StronglySorted Z.lt l -> StronglySorted Z.lt l' ->
  (forall z, In z l <-> In z l') -> l = l'.
Proof.
  intros Hl. revert l'. induction Hl as [|a l Hs IH Ha]; intros l' Hl' Heq.
  - destruct l' as [|b l']; [reflexivity|].
    exfalso. apply (Heq b). left. reflexivity.
  - destruct Hl' as [|b l' Hs' Hb].
    + exfalso. apply (Heq a). left. reflexivity.
    + rewrite List.Forall_forall in Ha, Hb.
      assert (Hab : a = b).
      { assert (H1 : In a (b :: l')) by (apply Heq; left; reflexivity).
        assert (H2 : In b (a :: l)) by (apply Heq; left; reflexivity).
        destruct H1 as [H1|H1]; [congruence|].
        destruct H2 as [H2|H2]; [congruence|].
        specialize (Ha _ H2). specialize (Hb _ H1). lia. }
      subst b. f_equal. apply IH; [exact Hs'|].
      intros z. split; intros Hz.
      * assert (H1 : In z (a :: l')) by (apply Heq; right; exact Hz).
        destruct H1 as [H1|H1]; [|exact H1].
        subst z. specialize (Ha _ Hz). lia.
      * assert (H1 : In z (a :: l)) by (apply Heq; right; exact Hz).
        destruct H1 as [H1|H1]; [|exact H1].
        subst z. specialize (Hb _ Hz). lia.
Qed.

Lemma np_unique_same_values (l l' : list Z) :
  (forall z, In z l <-> In z l') -> np_unique l = np_unique l'.
Proof.
  intros Heq. apply StronglySorted_lt_unique; try apply np_unique_sorted.
  intros z. rewrite !np_unique_In. apply Heq.
Qed.

Lemma list_sum_map_add {A} (f g : A -> nat) (l : list A) :
  list_sum (map (fun a => (f a + g a)%nat) l)
  = (list_sum (map f l) + list_sum (map g l))%nat.
Proof. induction l as [|a l IH]; simpl; [reflexivity|]. rewrite IH. lia. Qed.

Lemma list_sum_indicator (z : Z) (b : bool) (U : list Z) :
  List.NoDup U -> In z U ->
  list_sum (map (fun ind => if (z =? ind) && b then 1%nat else 0%nat) U)
  = if b then 1%nat else 0%nat.
Proof.
  induction 1 as [|u U Hu _ IH]; intros Hin; [destruct Hin|].
  simpl. destruct (z =? u) eqn:E.
  - apply Z.eqb_eq in E. subst u.
    assert (H0 : list_sum (map (fun ind => if (z =? ind) && b
                                           then 1%nat else 0%nat) U) = 0%nat).
    { clear IH Hin. induction U as [|v U IHU]; [reflexivity|].
      simpl. destruct (z =? v) eqn:E.
      - apply Z.eqb_eq in E. subst v. exfalso. apply Hu. left. reflexivity.
      - simpl. apply IHU. intros Hz. apply Hu. right. exact Hz. }
    rewrite H0. destruct b; reflexivity.
  - simpl. apply IH. destruct Hin as [Hin|Hin]; [|exact Hin].
    subst u. rewrite Z.eqb_refl in E. discriminate E.
Qed.

(** Counting per key and adding up counts everything once. *)
Lemma count_by_key {A} (P : A -> bool) (ps : list (A * Z)) (U : list Z) :
  List.NoDup U -> (forall p, In p ps -> In (snd p) U) ->
  list_sum (map (fun ind =>
                   length (List.filter
                             (fun p => (snd p =? ind) && P (fst p)) ps)) U)
  = length (List.filter (fun p => P (fst p)) ps).
Proof.
  intros HU. induction ps as [|p ps IH]; intros Hin.
  - clear. induction U as [|u U IHU]; [reflexivity|exact IHU].
  - transitivity
      (list_sum (map (fun ind =>
                        ((if (snd p =? ind)%Z && P (fst p) then 1 else 0)
                         + length (List.filter
                                     (fun q => (snd q =? ind)%Z && P (fst q))
                                     ps))%nat) U)).
    + f_equal. apply map_ext. intros ind. simpl.
      destruct ((snd p =? ind) && P (fst p)); reflexivity.
    + rewrite list_sum_map_add, IH by (intros q Hq; apply Hin; right; exact Hq).
      rewrite list_sum_indicator
        by (try exact HU; apply Hin; left; reflexivity).
      simpl. destruct (P (fst p)); reflexivity.
Qed.

Lemma in_combine_snd {A} (ts : list A) (ns : list Z) (p : A * Z) :
  In p (combine ts ns) -> In (snd p) ns.
Proof. destruct p as [t n]. apply in_combine_r. Qed.

Lemma filter_combine_fst {A} (P : A -> bool) (ts : list A) (ns : list Z) :
  length ts = length ns ->
  length (List.filter (fun p => P (fst p)) (combine ts ns))
  = length (List.filter P ts).
Proof.
  revert ns. induction ts as [|t ts IH]; intros [|n ns] Hlen;
    simpl in *; try reflexivity; try discriminate.
  destruct (P t); simpl; rewrite IH by lia; reflexivity.
Qed.

Lemma filter_Permutation_length {A} (P : A -> bool) (l l' : list A) :
  Permutation l l' ->
  length (List.filter P l) = length (List.filter P l').
Proof.
  induction 1 as [|a l l' _ IH|a b l|l l' l'' _ IH1 _ IH2]; simpl.
  - reflexivity.
  - destruct (P a); simpl; rewrite IH; reflexivity.
  - destruct (P a), (P b); reflexivity.
  - rewrite IH1. exact IH2.
Qed.

Lemma combine_map_snd {A} (ts : list A) (ns : list Z) :
  length ts = length ns -> map snd (combine ts ns) = ns.
Proof.
  revert ns. induction ts as [|t ts IH]; intros [|n ns] Hlen;
    simpl in *; try reflexivity; try discriminate.
  f_equal. apply IH. lia.
Qed.

(** X12. An empty index array gives no rates, whatever the spike times;
    a non-empty index array whose length differs from that of the spike
    times makes [neurons_firing] raise [IndexError]. *)
Theorem neurons_firing_lengths :
  forall (F : Type) (Fl : Float64 F) (t_spikes : list F)
         (neurons_i : list Z) (t0 t1 : F),
    neurons_firing t_spikes [] t0 t1 = Ok []
    /\ (neurons_i <> [] -> length t_spikes <> length neurons_i ->
        neurons_firing t_spikes neurons_i t0 t1 = Raise IndexError).
Proof.
  intros F Fl t_spikes neurons_i t0 t1. split; [reflexivity|].
  intros Hne Hlen. unfold neurons_firing.
  pose proof (np_unique_nonempty neurons_i Hne) as Hu.
  destruct (np_unique neurons_i) as [|ind r]; [congruence|].
  rewrite for_in_cons. unfold neurons_firing_body, np_mask.
  rewrite length_map.
  replace (length t_spikes =? length neurons_i)%nat with false
    by (symmetry; apply Nat.eqb_neq; exact Hlen).
  reflexivity.
Qed.

Lemma neurons_firing_lengths_witness :
  neurons_firing (F:=float) [0.5]%float [0; 1] 0%float 1%float
  = Raise IndexError.
Proof.
  apply (proj2 (neurons_firing_lengths float binary64 [0.5]%float [0; 1]
                  0%float 1%float)).
  - discriminate.
  - simpl. lia.
Defined.

(** X13. The spike counts behind the rates add up to the number of
    spikes strictly inside the window: every spike in the window is
    counted for exactly one neuron. *)
Theorem neurons_firing_counts_all_spikes :
  forall (F : Type) (Fl : Float64 F) (t_spikes : list F)
         (neurons_i : list Z) (t0 t1 : F),
    length t_spikes = length neurons_i ->
    exists counts : list nat,
      neurons_firing t_spikes neurons_i t0 t1
      = Ok (map (fun n => fdiv (of_int (Z.of_nat n))
                               (fmul (fsub t1 t0) second)) counts)
      /\ length counts = length (np_unique neurons_i)
      /\ list_sum counts
         = length (List.filter (fun t => flt t0 t && flt t t1) t_spikes).
Proof.
  intros F Fl t_spikes neurons_i t0 t1 Hlen.
  exists (map (fun ind => spike_count t_spikes neurons_i ind t0 t1)
              (np_unique neurons_i)).
  split; [rewrite map_map; apply neurons_firing_spec; exact Hlen|].
  split; [apply length_map|].
  unfold spike_count.
  rewrite (count_by_key (fun t => flt t0 t && flt t t1)).
  - apply (filter_combine_fst (fun t => flt t0 t && flt t t1)). exact Hlen.
  - apply StronglySorted_lt_NoDup, np_unique_sorted.
  - intros p Hp. apply np_unique_In. eapply in_combine_snd. exact Hp.
Qed.

Lemma neurons_firing_counts_all_spikes_witness :
  exists counts : list nat,
    neurons_firing (F:=float) [0.125; 0.5; 0.25; 2]%float [0; 1; 0; 0]
                   0%float 1%float
    = Ok (map (fun n => fdiv (of_int (Z.of_nat n))
                             (fmul (fsub 1%float 0%float) second)) counts)
    /\ list_sum counts = 3%nat.
Proof.
  destruct (neurons_firing_counts_all_spikes float binary64
              [0.125; 0.5; 0.25; 2]%float [0; 1; 0; 0] 0%float 1%float
              eq_refl) as (counts & Hr & _ & Hs).
  exists counts. split; [exact Hr|]. rewrite Hs. vm_compute. reflexivity.
Defined.

(** X14. The rates do not depend on the order of the spikes: two
    recordings whose (time, neuron) pairs are a permutation of each
    other give the same result. *)
Theorem neurons_firing_spike_order :
  forall (F : Type) (Fl : Float64 F) (t_spikes t_spikes' : list F)
         (neurons_i neurons_i' : list Z) (t0 t1 : F),
    length t_spikes = length neurons_i ->
    length t_spikes' = length neurons_i' ->
    Permutation (combine t_spikes neurons_i) (combine t_spikes' neurons_i') ->
    neurons_firing t_spikes neurons_i t0 t1
    = neurons_firing t_spikes' neurons_i' t0 t1.
Proof.
  intros F Fl ts ts' ns ns' t0 t1 Hlen Hlen' Hperm.
  rewrite !neurons_firing_spec by assumption.
  assert (Hns : Permutation ns ns').
  { rewrite <- (combine_map_snd ts ns Hlen),
            <- (combine_map_snd ts' ns' Hlen').
    apply Permutation_map. exact Hperm. }
  rewrite (np_unique_same_values ns ns').
  - f_equal. apply map_ext. intros ind. unfold spike_count.
    rewrite (filter_Permutation_length _ _ _ Hperm). reflexivity.
  - intros z. split; apply Permutation_in;
      [exact Hns | symmetry; exact Hns].
Qed.

Lemma neurons_firing_spike_order_witness :
  neurons_firing (F:=float) [0.25; 0.5]%float [1; 0] 0%float 1%float
  = neurons_firing (F:=float) [0.5; 0.25]%float [0; 1] 0%float 1%float.
Proof.
  apply (neurons_firing_spike_order float binary64); try reflexivity.
  simpl. apply perm_swap.
Defined.

(** ** [standard_error_I]: errors, unused samples, sign, mean *)

Lemma firstn_skipn_firstn {A} (l : list A) (s n m : nat) :
  (s + n <= m)%nat ->
  firstn n (skipn s (firstn m l)) = firstn n (skipn s l).
Proof.
  revert l m. induction s as [|s IH]; intros l m Hle.
  - rewrite !skipn_O, firstn_firstn. f_equal. lia.
  - destruct l as [|a l]; [rewrite firstn_nil; reflexivity|].
    destruct m as [|m]; [lia|]. simpl. apply IH. lia.
Qed.

Lemma py_slice_firstn {A} (l : list A) (s e : Z) (m : nat) :
  0 <= s -> s <= e -> e <= Z.of_nat m ->
  py_slice (firstn m l) s e = py_slice l s e.
Proof.
  intros Hs Hse Hem. unfold py_slice. apply firstn_skipn_firstn. lia.
Qed.

Lemma py_range_In (n i : Z) : In i (py_range n) -> 0 <= i < n.
Proof.
  unfold py_range, np_arange2. intros Hi.
  apply in_map_iff in Hi. destruct Hi as (j & <- & Hj).
  apply in_seq in Hj. lia.
Qed.

Lemma py_range_negative (n : Z) : n <= 0 -> py_range n = [].
Proof. intros Hn. unfold py_range. apply np_arange2_empty. lia. Qed.

(** X15. [standard_error_I] with [N_mean = 0] raises
    [ZeroDivisionError]; with a negative [N_mean] no window is formed
    and the maximum of the empty list of means raises [ValueError]. *)
Theorem standard_error_I_bad_N_mean :
  forall (F : Type) (Fl : Float64 F) (I : list F) (N_mean W : Z),
    (N_mean = 0 -> standard_error_I I N_mean = Raise ZeroDivisionError)
    /\ (N_mean < 0 ->
        to_int (fdiv (of_int (len I)) (of_int N_mean)) = Ok W ->
        standard_error_I I N_mean = Raise ValueError).
Proof.
  intros F Fl I N_mean W. split.
  - intros ->. reflexivity.
  - intros Hneg HW.
    rewrite (standard_error_I_branch I N_mean W) by (lia || exact HW).
    cbv zeta. unfold window_means. rewrite py_range_negative by lia.
    replace (N_mean <? 30) with true by (symmetry; apply Z.ltb_lt; lia).
    reflexivity.
Qed.

Lemma standard_error_I_bad_N_mean_witness :
  standard_error_I (F:=float) [1; 2; 3]%float 0 = Raise ZeroDivisionError
  /\ standard_error_I (F:=float) [1; 2; 3]%float (-2) = Raise ValueError.
Proof.
  destruct (standard_error_I_bad_N_mean float binary64 [1; 2; 3]%float 0 0)
    as [H0 _].
  destruct (standard_error_I_bad_N_mean float binary64 [1; 2; 3]%float
              (-2) (-1)) as [_ Hn].
  split.
  - apply H0. reflexivity.
  - apply Hn; [lia|]. vm_compute. reflexivity.
Defined.

Lemma standard_error_I_real_branch (I : list R) (N_mean : Z) :
  1 <= N_mean ->
  standard_error_I I N_mean
  = let W := len I / N_mean in
    let wm := window_means I N_mean W in
    let ws := window_stds I N_mean W in
    if N_mean <? 30 then
      match np_max wm with
      | Ok mx =>
          match np_min wm with
          | Ok mn => Ok (mean_spec wm, fdiv (fsub mx mn) (of_int 2))
          | Raise e => Raise e
          end
      | Raise e => Raise e
      end
    else Ok (mean_spec wm,
             fdiv (fsqrt (np_sum (zip_mul ws ws)))
                  (of_int (len (zip_mul ws ws)))).
Proof.
  intros Hn. apply standard_error_I_branch; [lia|].
  simpl. f_equal. apply Rtrunc_div; unfold len; lia.
Qed.

(** X16. Over the reals, [standard_error_I] only reads the first
    [N_mean * W] samples, [W = len(I) // N_mean]: the remaining
    [len(I) mod N_mean] samples do not change the result. *)
Theorem standard_error_I_ignores_tail :
  forall (I : list R) (N_mean : Z),
    1 <= N_mean ->
    standard_error_I (firstn (Z.to_nat (N_mean * (len I / N_mean))) I) N_mean
    = standard_error_I I N_mean.
Proof.
  intros I N_mean Hn.
  set (W := len I / N_mean).
  assert (HW : 0 <= W) by (apply Z.div_pos; unfold len; lia).
  assert (Hfit : N_mean * W <= len I)
    by (apply Z.mul_div_le; lia).
  set (m := Z.to_nat (N_mean * W)).
  assert (Hlen : len (firstn m I) = N_mean * W)
    by (unfold len in *; rewrite length_firstn; lia).
  rewrite !standard_error_I_real_branch by exact Hn. cbv zeta.
  rewrite Hlen. rewrite (Z.mul_comm N_mean W), Z.div_mul by lia.
  fold W.
  assert (Hsl : forall i, In i (py_range N_mean) ->
                  py_slice (firstn m I) (i * W) ((i + 1) * W)
                  = py_slice I (i * W) ((i + 1) * W)).
  { intros i Hi. apply py_range_In in Hi.
    apply py_slice_firstn; unfold m; nia. }
  assert (Hwm : window_means (firstn m I) N_mean W = window_means I N_mean W).
  { unfold window_means. apply map_ext_in. intros i Hi.
    rewrite Hsl by exact Hi. reflexivity. }
  assert (Hws : window_stds (firstn m I) N_mean W = window_stds I N_mean W).
  { unfold window_stds. apply map_ext_in. intros i Hi.
    rewrite Hsl by exact Hi. reflexivity. }
  rewrite Hwm, Hws. reflexivity.
Qed.

Lemma standard_error_I_ignores_tail_witness :
  standard_error_I (F:=R)
    (firstn (Z.to_nat (2 * (len [1; 2; 3; 4; 5]%R / 2))) [1; 2; 3; 4; 5]%R) 2
  = standard_error_I (F:=R) [1; 2; 3; 4; 5]%R 2.
Proof. apply (standard_error_I_ignores_tail [1; 2; 3; 4; 5]%R 2). lia. Defined.

(** X17. Over the reals, for [1 <= N_mean <= len(I)] (every window
    holds [W >= 1] samples, so that no mean or deviation divides by
    zero), [standard_error_I] returns a pair and its error is not
    negative, in both branches. *)
Theorem standard_error_I_error_nonneg :
  forall (I : list R) (N_mean : Z),
    1 <= N_mean -> N_mean <= len I ->
    1 <= len I / N_mean
    /\ exists m e : R,
         standard_error_I I N_mean = Ok (m, e) /\ (0 <= e)%R.
Proof.
  intros I N_mean Hn Hfit.
  split; [apply Z.div_le_lower_bound; lia|].
  rewrite standard_error_I_real_branch by exact Hn. cbv zeta.
  set (W := len I / N_mean).
  pose proof (window_means_length I N_mean W ltac:(lia)) as Hlen.
  pose proof (window_stds_length I N_mean W ltac:(lia)) as Hlens.
  destruct (N_mean <? 30).
  - destruct (window_means I N_mean W) as [|a r] eqn:E;
      [unfold len in Hlen; simpl in Hlen; lia|].
    simpl np_max. simpl np_min. eexists _, _. split; [reflexivity|].
    destruct (fold_left_Rmax_spec r a) as [_ Hmax].
    destruct (fold_left_Rmin_spec r a) as [_ Hmin].
    inversion Hmax as [|? ? Hmx _]; subst.
    inversion Hmin as [|? ? Hmn _]; subst.
    simpl. lra.
  - eexists _, _. split; [reflexivity|].
    simpl fdiv. simpl fsqrt. simpl of_int.
    apply Rle_mult_inv_pos; [apply sqrt_pos|].
    apply IZR_lt. unfold len in *. rewrite zip_mul_length. lia.
Qed.

Lemma standard_error_I_error_nonneg_witness :
  exists m e : R,
    standard_error_I (F:=R) [1; 2; 3; 4]%R 2 = Ok (m, e) /\ (0 <= e)%R.
Proof.
  apply (standard_error_I_error_nonneg [1; 2; 3; 4]%R 2);
    [lia | unfold len; simpl; lia].
Defined.

Lemma Rsum_app (a b : list R) : Rsum (a ++ b) = (Rsum a + Rsum b)%R.
Proof.
  unfold Rsum. induction a as [|x a IH]; simpl; [lra|]. rewrite IH. lra.
Qed.

Lemma Rsum_map_mult {A} (c : R) (f : A -> R) (l : list A) :
  Rsum (map (fun a => c * f a)%R l) = (c * Rsum (map f l))%R.
Proof.
  unfold Rsum. induction l as [|a l IH]; simpl; [lra|]. rewrite IH. lra.
Qed.

Lemma firstn_add_skipn {A} (l : list A) (a b : nat) :
  firstn (a + b) l = firstn a l ++ firstn b (skipn a l).
Proof.
  revert l. induction a as [|a IH]; intros l; [reflexivity|].
  destruct l as [|x l]; [simpl; rewrite firstn_nil; reflexivity|].
  simpl. f_equal. apply IH.
Qed.

(** The sums of [n] consecutive chunks of [w] samples add up to the sum
    of the first [n*w] samples. *)
Lemma Rsum_chunks (I : list R) (w n : nat) :
  Rsum (map (fun j => Rsum (firstn w (skipn (j * w) I))) (seq 0 n))
  = Rsum (firstn (n * w) I).
Proof.
  induction n as [|n IH]; [reflexivity|].
  rewrite seq_S, map_app, Rsum_app, IH. simpl map.
  replace (S n * w)%nat with (n * w + w)%nat by lia.
  rewrite firstn_add_skipn, Rsum_app. unfold Rsum at 2. simpl. lra.
Qed.

Lemma mean_spec_real (x : list R) :
  mean_spec x = (Rsum x / IZR (len x))%R.
Proof.
  rewrite <- np_mean_spec. unfold np_mean. rewrite np_sum_Rsum. reflexivity.
Qed.

Lemma window_means_real_sum (I : list R) (N_mean W : Z) :
  1 <= N_mean -> 1 <= W -> N_mean * W <= len I ->
  Rsum (window_means I N_mean W)
  = (Rsum (firstn (Z.to_nat (N_mean * W)) I) / IZR W)%R.
Proof.
  intros Hn HW Hfit. unfold window_means, py_range, np_arange2.
  rewrite map_map, Z.sub_0_r.
  replace (Z.to_nat (N_mean * W))
    with (Z.to_nat N_mean * Z.to_nat W)%nat by lia.
  rewrite <- Rsum_chunks.
  unfold Rdiv. rewrite Rmult_comm.
  rewrite <- (Rsum_map_mult (/ IZR W)
                (fun j => Rsum (firstn (Z.to_nat W)
                                       (skipn (j * Z.to_nat W) I)))).
  f_equal. apply map_ext_in. intros j Hj. apply in_seq in Hj.
  rewrite mean_spec_real. unfold py_slice.
  replace (Z.to_nat ((0 + Z.of_nat j + 1) * W - (0 + Z.of_nat j) * W))
    with (Z.to_nat W) by lia.
  replace (Z.to_nat ((0 + Z.of_nat j) * W)) with (j * Z.to_nat W)%nat by lia.
  unfold len. rewrite length_firstn, length_skipn.
  replace (Z.of_nat (Nat.min (Z.to_nat W)
                             (length I - j * Z.to_nat W))) with W.
  - unfold Rdiv. lra.
  - unfold len in Hfit. nia.
Qed.

(** X18. Over the reals, when every window has at least one sample
    ([N_mean <= len(I)]), the mean that [standard_error_I] returns is
    the plain mean of the [N_mean * W] samples it reads. *)
Theorem standard_error_I_mean :
  forall (I : list R) (N_mean : Z),
    1 <= N_mean -> N_mean <= len I ->
    exists e : R,
      standard_error_I I N_mean
      = Ok ((Rsum (firstn (Z.to_nat (N_mean * (len I / N_mean))) I)
             / IZR (N_mean * (len I / N_mean)))%R, e).
Proof.
  intros I N_mean Hn Hlen.
  set (W := len I / N_mean).
  assert (HW : 1 <= W) by (apply Z.div_le_lower_bound; lia).
  assert (Hfit : N_mean * W <= len I) by (apply Z.mul_div_le; lia).
  assert (Hmean : mean_spec (window_means I N_mean W)
                  = (Rsum (firstn (Z.to_nat (N_mean * W)) I)
                     / IZR (N_mean * W))%R).
  { rewrite mean_spec_real, window_means_length by lia.
    rewrite window_means_real_sum by assumption.
    rewrite mult_IZR.
    assert (0 < IZR N_mean)%R by (apply IZR_lt; lia).
    assert (0 < IZR W)%R by (apply IZR_lt; lia).
    field. lra. }
  rewrite standard_error_I_real_branch by exact Hn. cbv zeta. fold W.
  rewrite Hmean.
  pose proof (window_means_length I N_mean W ltac:(lia)) as Hl.
  destruct (N_mean <? 30).
  - destruct (window_means I N_mean W) as [|a r];
      [unfold len in Hl; simpl in Hl; lia|].
    eexists. reflexivity.
  - eexists. reflexivity.
Qed.

Lemma standard_error_I_mean_witness :
  exists e : R,
    standard_error_I (F:=R) [1; 2; 3; 4; 5]%R 2
    = Ok ((Rsum (firstn (Z.to_nat (2 * (len [1; 2; 3; 4; 5]%R / 2)))
                        [1; 2; 3; 4; 5]%R)
           / IZR (2 * (len [1; 2; 3; 4; 5]%R / 2)))%R, e).
Proof.
  apply (standard_error_I_mean [1; 2; 3; 4; 5]%R 2);
    [lia | unfold len; simpl; lia].
Defined.

(** ** [errore_in_quadrature] *)

(** X19. For [N_mean >= 30] the error of [standard_error_I] is
    [errore_in_quadrature] of the standard deviations of the windows. *)
Theorem standard_error_I_quadrature :
  forall (F : Type) (Fl : Float64 F) (I : list F) (N_mean W : Z),
    30 <= N_mean ->
    to_int (fdiv (of_int (len I)) (of_int N_mean)) = Ok W ->
    standard_error_I I N_mean
    = Ok (mean_spec (window_means I N_mean W),
          errore_in_quadrature (window_stds I N_mean W)).
Proof.
  intros F Fl I N_mean W Hn HW.
  rewrite (standard_error_I_branch I N_mean W) by (lia || exact HW).
  cbv zeta.
  replace (N_mean <? 30) with false by (symmetry; apply Z.ltb_ge; lia).
  unfold errore_in_quadrature, len. rewrite zip_mul_length. reflexivity.
Qed.

Lemma standard_error_I_quadrature_witness :
  standard_error_I (F:=float) (repeat 1%float 60) 30
  = Ok (mean_spec (window_means (repeat 1%float 60) 30 2),
        errore_in_quadrature (window_stds (repeat 1%float 60) 30 2)).
Proof.
  apply (standard_error_I_quadrature float binary64 (repeat 1%float 60) 30 2).
  - lia.
  - vm_compute. reflexivity.
Defined.

Lemma zip_mul_repeat {F : Type} `{Float64 F} (s : F) (n : nat) :
  zip_mul (repeat s n) (repeat s n) = repeat (fmul s s) n.
Proof.
  unfold zip_mul. induction n as [|n IH]; [reflexivity|].
  simpl. f_equal. exact IH.
Qed.

(** X20. Over the reals, [n >= 1] independent measures of the same
    standard deviation [s >= 0] combine to [s / sqrt(n)]. *)
Theorem errore_in_quadrature_equal_stds :
  forall (s : R) (n : nat),
    (0 <= s)%R -> (1 <= n)%nat ->
    errore_in_quadrature (repeat s n) = (s / R_sqrt.sqrt (INR n))%R.
Proof.
  intros s n Hs Hn. unfold errore_in_quadrature.
  rewrite zip_mul_repeat, np_sum_Rsum, Rsum_repeat.
  unfold len. rewrite repeat_length, <- INR_IZR_INZ.
  assert (HN : (0 < INR n)%R) by (apply lt_0_INR; lia).
  pose proof (sqrt_lt_R0 _ HN) as Hsq.
  pose proof (sqrt_sqrt (INR n) ltac:(lra)) as Hss.
  change (R_sqrt.sqrt (INR n * (s * s)) / INR n
          = s / R_sqrt.sqrt (INR n))%R.
  rewrite sqrt_mult by nra. rewrite sqrt_square by exact Hs.
  rewrite <- Hss at 2. field. lra.
Qed.

Lemma errore_in_quadrature_equal_stds_witness :
  errore_in_quadrature (repeat 3%R 4) = (3 / R_sqrt.sqrt (INR 4))%R.
Proof. apply (errore_in_quadrature_equal_stds 3%R 4); [lra | lia]. Defined.

(** ** [blocking]: deeper levels *)

Lemma seq_offset (k j : nat) : seq k j = map (fun i => (k + i)%nat) (seq 0 j).
Proof.
  revert k. induction j as [|j IH]; intros k; [reflexivity|].
  simpl. f_equal; [lia|].
  rewrite (IH (S k)), <- seq_shift, map_map.
  apply map_ext. intros i. lia.
Qed.

(** X21. The estimates of [blocking x (k + j)] are those of
    [blocking x k] followed by those of [blocking] applied [j] times to
    the sequence left after [k] re-blockings: asking for more levels
    only appends estimates. *)
Theorem blocking_more_levels :
  forall (F : Type) (Fl : Float64 F) (x : list F) (k j : nat),
    exists a b : list F,
      blocking x (Z.of_nat k) = Ok a
      /\ blocking (Nat.iter k reblock x) (Z.of_nat j) = Ok b
      /\ blocking x (Z.of_nat (k + j)) = Ok (a ++ b)
      /\ length (Nat.iter k reblock x) = (length x / 2 ^ k)%nat.
Proof.
  intros F Fl x k j. eexists _, _.
  split; [apply blocking_spec|]. split; [apply blocking_spec|].
  split; [|apply reblock_iter_length].
  rewrite blocking_spec, seq_app, map_app. do 2 f_equal.
  simpl Nat.add. rewrite (seq_offset k j), map_map.
  apply map_ext. intros i. f_equal.
  replace (S (k + i)) with (S i + k)%nat by lia.
  apply Nat.iter_add.
Qed.

(** ** Smoothing a constant signal *)

Lemma fold_dot_repeat_l (w : list R) (c : R) (m : nat) (a : R) :
  fold_left (fun acc ab => (acc + fst ab * snd ab)%R)
            (combine (repeat c m) w) a
  = (a + c * Rsum (firstn m w))%R.
Proof.
  revert m a. induction w as [|b w IH]; intros [|m] a; simpl;
    try (unfold Rsum; simpl; lra).
  rewrite IH. unfold Rsum. simpl. lra.
Qed.

Lemma dot_repeat_l (w : list R) (c : R) (m : nat) :
  dot (repeat c m) w = (c * Rsum (firstn m w))%R.
Proof.
  unfold dot. simpl of_int.
  change (fold_left (fun acc ab => (acc + fst ab * snd ab)%R)
                    (combine (repeat c m) w) 0%R
          = (c * Rsum (firstn m w))%R).
  rewrite fold_dot_repeat_l. lra.
Qed.

Lemma Rsum_rev (l : list R) : Rsum (rev l) = Rsum l.
Proof.
  induction l as [|a l IH]; [reflexivity|].
  simpl rev. rewrite Rsum_app, IH. unfold Rsum. simpl. lra.
Qed.

(** Away from the edges, correlating a constant signal with a window
    multiplies the constant by the sum of the weights. *)
Lemma np_correlate_same_constant_signal (c : R) (L : nat) (w : list R)
    (i : nat) :
  (length w / 2 <= i)%nat -> (i + (length w - 1) / 2 < L)%nat ->
  nth_error (np_correlate_same (repeat c L) w) i = Some (c * Rsum w)%R.
Proof.
  intros Hlo Hhi. unfold np_correlate_same, len.
  rewrite repeat_length, np_arange_of_nat, map_map, nth_error_map.
  rewrite nth_error_seq.
  assert (HiL : (i < L)%nat) by lia.
  replace (i <? L)%nat with true by (symmetry; apply Nat.ltb_lt; exact HiL).
  simpl option_map. f_equal.
  assert (Hq : Z.of_nat (length w) / 2 = Z.of_nat (length w / 2))
    by (rewrite Nat2Z.inj_div; reflexivity).
  rewrite Hq.
  replace (Z.to_nat (Z.of_nat i - Z.of_nat (length w / 2)))
    with (i - length w / 2)%nat by lia.
  replace (Z.to_nat (- (Z.of_nat i - Z.of_nat (length w / 2))))
    with 0%nat by lia.
  rewrite skipn_repeat_sub, skipn_O, dot_repeat_l.
  rewrite firstn_all2; [reflexivity|].
  pose proof (Nat.div_mod_eq (length w) 2) as Hdm.
  pose proof (Nat.mod_upper_bound (length w) 2 ltac:(lia)) as Hm.
  pose proof (Nat.div_mod_eq (length w - 1) 2) as Hdm'.
  pose proof (Nat.mod_upper_bound (length w - 1) 2 ltac:(lia)) as Hm'.
  lia.
Qed.

Lemma select_window_positive (window : string) (width ddt : R) :
  window = "gaussian"%string \/ window = "flat"%string ->
  (0 < width)%R -> (0 < ddt)%R ->
  exists k, select_window window width ddt = Ok k
            /\ k <> [] /\ List.Forall (fun a => (0 < a)%R) k.
Proof.
  intros Hw Hwidth Hddt.
  assert (Hq : (0 < width / ddt)%R) by (apply Rdiv_lt_0_compat; assumption).
  destruct Hw as [-> | ->].
  - assert (Hv : (0 <= 2 * width / ddt)%R) by (unfold Rdiv in *; nra).
    pose proof (Rrint_nonneg _ Hv) as Hr.
    eexists. split; [apply gaussian_window_real|]. split.
    + intros Hnil. apply map_eq_nil in Hnil.
      revert Hnil. apply np_arange2_nonempty. lia.
    + apply List.Forall_forall. intros a Ha.
      apply in_map_iff in Ha. destruct Ha as (j & <- & _). apply exp_pos.
  - assert (Hv : (0 <= width / 2 / ddt)%R).
    { replace (width / 2 / ddt)%R with (width / ddt / 2)%R by (field; lra).
      lra. }
    pose proof (Rtrunc_nonneg _ Hv) as Ht.
    eexists. split.
    + unfold select_window. simpl String.eqb.
      apply flat_window_real_ones. exact Ht.
    + split; [|apply repeat_pos; lra].
      destruct (2 * Z.to_nat (Rtrunc (width / 2 / ddt)) + 1)%nat eqn:E;
        [lia|discriminate].
Qed.

(** X22. Over the reals, for both windows and positive [width] and
    [ddt], smoothing a constant signal at least as long as the window
    returns the same constant at every position whose window lies
    inside the signal. *)
Theorem smoothing_b_constant_signal :
  forall (window : string) (width ddt c : R) (L : nat),
    window = "gaussian"%string \/ window = "flat"%string ->
    (0 < width)%R -> (0 < ddt)%R ->
    exists k : list R,
      select_window window width ddt = Ok k
      /\ ((length k <= L)%nat ->
          exists y,
            smoothing_b (repeat c L) window width ddt = Ok y
            /\ forall i,
                 (length k / 2 <= i)%nat ->
                 (i + (length k - 1) / 2 < L)%nat ->
                 nth_error y i = Some c).
Proof.
  intros window width ddt c L Hw Hwidth Hddt.
  destruct (select_window_positive window width ddt Hw Hwidth Hddt)
    as (k & Hk & Hne & Hpos).
  exists k. split; [exact Hk|]. intros HL.
  unfold smoothing_b. rewrite Hk. unfold mbind, outcome_bind.
  rewrite np_convolve_same_long_signal.
  - eexists. split; [reflexivity|]. intros i Hlo Hhi.
    rewrite np_correlate_same_constant_signal
      by (rewrite length_rev, normalise_length; assumption).
    rewrite Rsum_rev, <- np_sum_Rsum, normalise_unit_sum by assumption.
    f_equal. lra.
  - intros Hn. apply Hne. apply (f_equal (@length R)) in Hn.
    rewrite normalise_length in Hn. destruct k; [reflexivity|discriminate].
  - rewrite normalise_length, repeat_length. exact HL.
Qed.

Lemma smoothing_b_constant_signal_witness :
  exists k : list R,
    select_window (F:=R) "flat" 3%R 1%R = Ok k
    /\ ((length k <= 5)%nat ->
        exists y,
          smoothing_b (repeat 2%R 5) "flat" 3%R 1%R = Ok y
          /\ forall i,
               (length k / 2 <= i)%nat ->
               (i + (length k - 1) / 2 < 5)%nat ->
               nth_error y i = Some 2%R).
Proof.
  apply (smoothing_b_constant_signal "flat" 3%R 1%R 2%R 5);
    [right; reflexivity | lra | lra].
Defined.
